(** * data_retrieval: query building and record merging

    A shallow embedding of [assignment_2/data_retrieval.py]:
    [build_query] (lines 48-76) and [update_artist_from_mb] with its inner
    closure [set_field] (lines 79-160), followed by the properties of the
    specification that concern them.

    Python values are dynamically typed, so a record is a finite map from
    field names to a small universe of values ([pyval]), and the
    operations the code applies to a value of unknown type ([.get],
    [.lower], [.startswith], subscripting, iteration, [str.join]) raise
    the exception Python raises when the value has the wrong type.
    [update_artist_from_mb] mutates its argument: a call is a function
    from the record before to the outcome (a returned dict or an
    exception) and the record after. *)

From Stdlib Require Import ZArith Ascii String.
From stdpp Require Import gmap strings list fin_maps.

Set Warnings "-register-all".
Local Open Scope string_scope.

(** ** Values *)

(** The values a JSON-like record can hold.  Floats, tuples and user
    objects are outside the model.  A string is a sequence of 8-bit
    characters, and a dict has string keys. *)
Inductive pyval : Type :=
  | PNone
  | PBool (b : bool)
  | PInt (z : Z)
  | PStr (s : string)
  | PList (l : list pyval)
  | PDict (d : gmap string pyval).

(** A record: a Python [dict] whose keys are strings. *)
Abbreviation dict := (gmap string pyval).

(** The exceptions the two functions can raise. *)
Inductive exn : Type :=
  | KeyError (key : pyval)
  | TypeError
  | AttributeError.

Inductive result (A : Type) : Type :=
  | Return (a : A)
  | Raise (e : exn).
Arguments Return {A} a.
Arguments Raise {A} e.

#[global] Instance result_ret : MRet result := @Return.
#[global] Instance result_bind : MBind result := fun A B f r =>
  match r with
  | Return a => f a
  | Raise e => Raise e
  end.
#[global] Instance result_fmap : FMap result := fun A B f r =>
  match r with
  | Return a => Return (f a)
  | Raise e => Raise e
  end.

(** ** Python primitives *)

(** [bool(v)]: the truth value of [v] in an [if]. *)
Definition py_truthy (v : pyval) : bool :=
  match v with
  | PNone => false
  | PBool b => b
  | PInt z => negb (z =? 0)%Z
  | PStr s => negb (String.eqb s EmptyString)
  | PList l => match l with [] => false | _ :: _ => true end
  | PDict d => negb (size d =? 0)%nat
  end.

(** [d.get(key)] on a dict: [None] when the key is missing. *)
Definition dict_get (d : dict) (key : string) : pyval :=
  default PNone (d !! key).

(** [v.get(key, dflt)] on a value of unknown type: only a dict has [.get]. *)
Definition py_get (v : pyval) (key : string) (dflt : pyval) : result pyval :=
  match v with
  | PDict d => Return (default dflt (d !! key))
  | _ => Raise AttributeError
  end.

(** [v[key]] with a string key: a missing key of a dict is a [KeyError];
    a list or a string takes integer indices only, and the other values
    are not subscriptable. *)
Definition py_getitem (v : pyval) (key : string) : result pyval :=
  match v with
  | PDict d =>
      match d !! key with
      | Some x => Return x
      | None => Raise (KeyError (PStr key))
      end
  | _ => Raise TypeError
  end.

(** [iter(v)]: the elements a [for] loop or a comprehension visits.  A
    string yields its characters, a dict its keys (here in the order of
    [map_to_list]; every key is a string whatever the order). *)
Definition py_iter (v : pyval) : result (list pyval) :=
  match v with
  | PList l => Return l
  | PStr s => Return ((fun c => PStr (String c EmptyString)) <$> list_ascii_of_string s)
  | PDict d => Return ((fun kv => PStr kv.1) <$> map_to_list d)
  | _ => Raise TypeError
  end.

(** [str.lower] on the letters A-Z; the other characters are left as they
    are. *)
Definition ascii_lower (c : ascii) : ascii :=
  let n := nat_of_ascii c in
  if (65 <=? n)%nat && (n <=? 90)%nat then ascii_of_nat (n + 32) else c.

Fixpoint str_lower (s : string) : string :=
  match s with
  | EmptyString => EmptyString
  | String c s' => String (ascii_lower c) (str_lower s')
  end.

(** [v.lower()]: only a string has [.lower]. *)
Definition py_lower (v : pyval) : result string :=
  match v with
  | PStr s => Return (str_lower s)
  | _ => Raise AttributeError
  end.

(** [v.startswith(p)]: only a string has [.startswith]. *)
Definition py_startswith (v : pyval) (p : string) : result bool :=
  match v with
  | PStr s => Return (String.prefix p s)
  | _ => Raise AttributeError
  end.

(** The items of [sep.join(l)]: every item must be a string. *)
Fixpoint py_strs (l : list pyval) : result (list string) :=
  match l with
  | [] => Return []
  | PStr s :: l' => cons s <$> py_strs l'
  | _ :: _ => Raise TypeError
  end.

(** [sep.join(l)]. *)
Definition py_join (sep : string) (l : list pyval) : result string :=
  String.concat sep <$> py_strs l.

(** [v in (None, "", [])], with Python's [==]: no boolean, integer or
    dict equals any of the three. *)
Definition py_in_blank (v : pyval) : bool :=
  match v with
  | PNone => true
  | PStr EmptyString => true
  | PList [] => true
  | _ => false
  end.

(** [v in ("false", False, None)], with Python's [==]: [0 == False]. *)
Definition py_in_false (v : pyval) : bool :=
  match v with
  | PNone => true
  | PBool false => true
  | PInt 0 => true
  | PStr s => String.eqb s "false"
  | _ => false
  end.

(** ** The state of a call: the local record, mutated in place *)

(** A statement runs on the current [artist] dict and leaves the dict as
    it is when the statement ends, by returning or by raising: an
    assignment made before an exception stays made. *)
Definition M (A : Type) : Type := dict → result A * dict.

#[global] Instance M_ret : MRet M := fun A a artist => (Return a, artist).
#[global] Instance M_bind : MBind M := fun A B f m artist =>
  match m artist with
  | (Return a, artist') => f a artist'
  | (Raise e, artist') => (Raise e, artist')
  end.

(** A computation that does not touch the record. *)
Definition lift {A : Type} (r : result A) : M A := fun artist => (r, artist).

(** The object the name [artist] is bound to. *)
Definition get_artist : M dict := fun artist => (Return artist, artist).

(** [for x in l: body(x)]. *)
Fixpoint for_each {A : Type} (l : list A) (body : A → M unit) : M unit :=
  match l with
  | [] => mret tt
  | x :: l' => body x ;; for_each l' body
  end.

(** ** build_query *)

(** The double quote character, as a string. *)
Definition dquote : string := String (ascii_of_nat 34) EmptyString.

Definition countries_map : gmap string string := {[ "Italia" := "IT" ]}.

(** [countries_map[key]]: a list or a dict is unhashable; any other value
    that is not a key is a [KeyError]. *)
Definition countries_getitem (key : pyval) : result string :=
  match key with
  | PStr s =>
      match countries_map !! s with
      | Some code => Return code
      | None => Raise (KeyError key)
      end
  | PList _ | PDict _ => Raise TypeError
  | _ => Raise (KeyError key)
  end.

Section QueryBuilder.

(** What an f-string writes for a value that is not a string (Python's
    builtin [format]); a string is written as it is. *)
Variable py_format : pyval → string.

Definition format_value (v : pyval) : string :=
  match v with
  | PStr s => s
  | _ => py_format v
  end.

Definition name_clause (name : pyval) : string :=
  "name:" ++ dquote ++ format_value name ++ dquote.

Definition country_clause (code : string) : string :=
  "country:" ++ dquote ++ code ++ dquote.

(** Lines 62-74: the list [clauses] when the [return] is reached. *)
Definition build_query_clauses (artist : dict) : result (list string) :=
  let clauses : list string := [] in
  let clauses :=
    if py_truthy (dict_get artist "name")
    then (clauses ++ [name_clause (dict_get artist "name")])%list
    else clauses in
  if py_truthy (dict_get artist "country")
  then
    country ← countries_getitem (dict_get artist "country");
    mret (clauses ++ [country_clause country])%list
  else mret (clauses ++ [country_clause "IT"])%list.

Definition build_query (artist : dict) : result string :=
  String.concat " AND " <$> build_query_clauses artist.

End QueryBuilder.

(** ** update_artist_from_mb *)

(** The closure [set_field] (lines 100-115); [overwrite] and [artist] are
    the variables it captures. *)
Definition set_field (overwrite : bool) (key : string) (value : pyval) : M unit :=
  fun artist =>
    match value with
    | PNone => (Return tt, artist)
    | _ =>
        if overwrite || py_in_blank (dict_get artist key)
        then (Return tt, <[key := value]> artist)
        else (Return tt, artist)
    end.

(** Line 124, the conditional expression bound to [normalized]:
    ["M" if gender.lower() == "male" else "F" if gender.lower() == "female"
    else None]. *)
Definition normalize_gender (gender : pyval) : result pyval :=
  lowered ← py_lower gender;
  if String.eqb lowered "male" then mret (PStr "M")
  else
    lowered' ← py_lower gender;
    mret (if String.eqb lowered' "female" then PStr "F" else PNone).

(** Lines 118-119, [# --- Basic fields ---]. *)
Definition set_basic_fields (mb : dict) (overwrite : bool) : M unit :=
  set_field overwrite "id_author" (dict_get mb "id") ;;
  set_field overwrite "name" (dict_get mb "name").

(** Lines 122-125, [# Gender normalization]. *)
Definition set_gender (mb : dict) (overwrite : bool) : M unit :=
  let gender := dict_get mb "gender" in
  if py_truthy gender
  then
    normalized ← lift (normalize_gender gender);
    set_field overwrite "gender" normalized
  else mret tt.

(** Lines 128-139, [# --- Life span ---]. *)
Definition set_life_span (mb : dict) (overwrite : bool) : M unit :=
  let ls := default (PDict ∅) (mb !! "life-span") in
  birth ← lift (py_get ls "begin" PNone);
  set_field overwrite "birth_date" birth ;;
  start ← lift (py_get ls "begin" PNone);
  set_field overwrite "active_start" start ;;
  ended ← lift (py_get ls "ended" PNone);
  if py_in_false ended then mret tt
  else set_field overwrite "active_end" ended.

(** Lines 142-143, [# --- Area (country) ---]. *)
Definition set_country (mb : dict) (overwrite : bool) : M unit :=
  match mb !! "area" with
  | Some area =>
      name ← lift (py_get area "name" PNone);
      set_field overwrite "country" name
  | None => mret tt
  end.

(** Lines 146-147, [# --- Birthplace (begin-area) ---]. *)
Definition set_birth_place (mb : dict) (overwrite : bool) : M unit :=
  match mb !! "begin-area" with
  | Some area =>
      name ← lift (py_get area "name" PNone);
      set_field overwrite "birth_place" name
  | None => mret tt
  end.

(** Lines 150-153, [# --- Tags -> description ---]. *)
Definition set_description (mb : dict) (overwrite : bool) : M unit :=
  match mb !! "tag-list" with
  | Some tag_list =>
      ts ← lift (py_iter tag_list);
      tags ← lift (mapM (fun t => py_getitem t "name") ts);
      match tags with
      | [] => mret tt
      | _ :: _ =>
          joined ← lift (py_join ", " tags);
          set_field overwrite "description" (PStr joined)
      end
  | None => mret tt
  end.

(** Lines 157-158, the body of the loop over the aliases. *)
Definition set_nationality_from (overwrite : bool) (a : pyval) : M unit :=
  locale ← lift (py_get a "locale" (PStr EmptyString));
  it ← lift (py_startswith locale "it");
  if it : bool then set_field overwrite "nationality" (PStr "Italia")
  else mret tt.

(** Lines 156-158, [# --- Alias -> nationality (Italian example) ---]. *)
Definition set_nationality (mb : dict) (overwrite : bool) : M unit :=
  aliases ← lift (py_iter (default (PList []) (mb !! "alias-list")));
  for_each aliases (set_nationality_from overwrite).

(** Lines 117-160: the sections in their order, then [return artist]. *)
Definition update_body (mb : dict) (overwrite : bool) : M dict :=
  set_basic_fields mb overwrite ;;
  set_gender mb overwrite ;;
  set_life_span mb overwrite ;;
  set_country mb overwrite ;;
  set_birth_place mb overwrite ;;
  set_description mb overwrite ;;
  set_nationality mb overwrite ;;
  get_artist.

(** [update_artist_from_mb(artist, mb, overwrite)]: what the call does
    (returns the dict or raises) and the contents of the caller's
    [artist] dict afterwards. *)
Definition update_artist_from_mb (artist mb : dict) (overwrite : bool)
  : result dict * dict :=
  update_body mb overwrite artist.

(** The caller's record after the call. *)
Definition merged (artist mb : dict) (overwrite : bool) : dict :=
  (update_artist_from_mb artist mb overwrite).2.

(** ** The writes of a call *)

(** A call of [set_field]: the key and the value passed. *)
Definition write : Type := string * pyval.

(** The record after one call of [set_field]. *)
Definition apply_write (overwrite : bool) (artist : dict) (w : write) : dict :=
  (set_field overwrite w.1 w.2 artist).2.

(** The record after a sequence of calls of [set_field]. *)
Definition apply_writes (overwrite : bool) (ws : list write) (artist : dict) : dict :=
  foldl (apply_write overwrite) artist ws.

(** [p] calls [set_field] on [ws], in this order, and does nothing else to
    the record; it ends with [r], whatever the record. *)
Definition traced {A : Type} (overwrite : bool) (p : M A) (ws : list write)
    (r : result A) : Prop :=
  ∀ artist, p artist = (r, apply_writes overwrite ws artist).

(** [p] is a sequence of calls of [set_field] whose writes all satisfy [P],
    and whether it raises does not depend on the record. *)
Definition plain {A : Type} (overwrite : bool) (P : write → Prop) (p : M A) : Prop :=
  ∃ ws r, traced overwrite p ws r ∧ Forall P ws.

(** [p] is such a sequence that ends, unless it raises, by handing the
    record back ([return artist]). *)
Definition writes_only (overwrite : bool) (P : write → Prop) (p : M dict) : Prop :=
  ∃ ws (r : result unit),
    (∀ artist,
       p artist = ((fun _ => apply_writes overwrite ws artist) <$> r,
                   apply_writes overwrite ws artist))
    ∧ Forall P ws.

(** ** The candidate values of the specification *)

(** [external.life-span.<key>]; a missing [life-span] is the empty dict. *)
Definition life_span_get (mb : dict) (key : string) : pyval :=
  match mb !! "life-span" with
  | None => PNone
  | Some (PDict ls) => dict_get ls key
  | Some _ => PNone
  end.

(** [external.<area>.name], when [external] has the key [area]. *)
Definition area_name (mb : dict) (area : string) : pyval :=
  match mb !! area with
  | Some (PDict d) => dict_get d "name"
  | _ => PNone
  end.

(** The alias is a dict whose locale is a string starting with "it". *)
Definition alias_is_it (a : pyval) : bool :=
  match a with
  | PDict d =>
      match d !! "locale" with
      | Some (PStr locale) => String.prefix "it" locale
      | _ => false
      end
  | _ => false
  end.

(** Some entry of [external.alias-list] has a locale starting with "it". *)
Definition has_it_locale (mb : dict) : bool :=
  match mb !! "alias-list" with
  | Some (PList aliases) => existsb alias_is_it aliases
  | _ => false
  end.

(** The candidate value of a local field, derived from the external
    record as the field table of the specification says (section 4.2);
    [PNone] is the absent candidate. *)
Definition candidate (mb : dict) (field : string) : pyval :=
  if String.eqb field "id_author" then dict_get mb "id"
  else if String.eqb field "name" then dict_get mb "name"
  else if String.eqb field "gender" then
    match dict_get mb "gender" with
    | PStr g =>
        if String.eqb (str_lower g) "male" then PStr "M"
        else if String.eqb (str_lower g) "female" then PStr "F"
        else PNone
    | _ => PNone
    end
  else if String.eqb field "birth_date" then life_span_get mb "begin"
  else if String.eqb field "active_start" then life_span_get mb "begin"
  else if String.eqb field "active_end" then
    if py_in_false (life_span_get mb "ended") then PNone
    else life_span_get mb "ended"
  else if String.eqb field "country" then area_name mb "area"
  else if String.eqb field "birth_place" then area_name mb "begin-area"
  else if String.eqb field "description" then
    match mb !! "tag-list" with
    | Some (PList (t :: ts)) =>
        match mapM (fun t => py_getitem t "name") (t :: ts) ≫= py_join ", " with
        | Return joined => PStr joined
        | Raise _ => PNone
        end
    | _ => PNone
    end
  else if String.eqb field "nationality" then
    if has_it_locale mb then PStr "Italia" else PNone
  else PNone.

(** Every value [set_field] is called with is the candidate of its key. *)
Definition is_candidate (mb : dict) (w : write) : Prop :=
  w.2 = candidate mb w.1.

(** The writes of a section: to its own keys, each with the candidate. *)
Definition writes_to (mb : dict) (keys : list string) (w : write) : Prop :=
  w.1 ∈ keys ∧ is_candidate mb w.

(** [v is None]. *)
Definition is_none (v : pyval) : bool :=
  match v with PNone => true | _ => false end.

(** A write that changes nothing on this record. *)
Definition settled (artist : dict) (w : write) : Prop :=
  apply_write false artist w = artist.

(** Two calls of [set_field] on one key pass one value. *)
Definition agree (w w' : write) : Prop := w.1 = w'.1 → w.2 = w'.2.

(** A clause of the form [country:...]. *)
Definition is_country_clause (clause : string) : bool :=
  String.prefix "country:" clause.

(** [key in countries_map], for a hashable key. *)
Definition is_country_key (key : pyval) : bool :=
  match key with
  | PStr s => match countries_map !! s with Some _ => true | None => false end
  | _ => false
  end.

(** A [format] for the examples, where every value written is a string. *)
Definition format_unused : pyval → string := fun _ => EmptyString.

(** [hash(v)] does not raise: [v] can be looked up in a dict. *)
Definition py_hashable (v : pyval) : bool :=
  match v with
  | PList _ | PDict _ => false
  | _ => true
  end.

(** [p] returns on every record. *)
Definition returns {A : Type} (p : M A) : Prop :=
  ∀ artist, ∃ x artist', p artist = (Return x, artist').

Definition is_str (v : pyval) : bool :=
  match v with PStr _ => true | _ => false end.

Definition is_dict (v : pyval) : bool :=
  match v with PDict _ => true | _ => false end.

(** A tag with a name that is a string. *)
Definition tag_has_name (t : pyval) : bool :=
  match t with
  | PDict d => match d !! "name" with Some (PStr _) => true | _ => false end
  | _ => false
  end.

(** An alias whose locale is missing or a string. *)
Definition alias_has_locale_type (a : pyval) : bool :=
  match a with
  | PDict d => match d !! "locale" with None | Some (PStr _) => true | _ => false end
  | _ => false
  end.

Definition absent_or (shape : pyval → bool) (o : option pyval) : bool :=
  match o with None => true | Some v => shape v end.

Definition list_of (shape : pyval → bool) (v : pyval) : bool :=
  match v with PList l => forallb shape l | _ => false end.

(** An external record with the nesting of a MusicBrainz artist: the
    gender is falsy or a string; [life-span], [area] and [begin-area] are
    missing or dicts, with any keys; [tag-list] is missing or a list of
    tags with a name; [alias-list] is missing or a list of dicts. *)
Definition well_shaped (mb : dict) : bool :=
  (negb (py_truthy (dict_get mb "gender")) || is_str (dict_get mb "gender"))
  && absent_or is_dict (mb !! "life-span")
  && absent_or is_dict (mb !! "area")
  && absent_or is_dict (mb !! "begin-area")
  && absent_or (list_of tag_has_name) (mb !! "tag-list")
  && absent_or (list_of alias_has_locale_type) (mb !! "alias-list").

(** ** More of the merge and of the query builder *)

(** The ten local fields [update_artist_from_mb] writes, in the order of
    the calls of [set_field]. *)
Definition target_fields : list string :=
  ["id_author"; "name"; "gender"; "birth_date"; "active_start"; "active_end";
   "country"; "birth_place"; "description"; "nationality"].

(** One call of [set_field] per target field, with its candidate. *)
Definition candidate_writes (mb : dict) : list write :=
  (fun field => (field, candidate mb field)) <$> target_fields.

(** What one call of [set_field] leaves in a field (lines 112-115): the
    old contents [old] (missing is [None]), or the value passed. *)
Definition resolve (overwrite : bool) (old : option pyval) (value : pyval)
  : option pyval :=
  if is_none value then old
  else if overwrite || py_in_blank (default PNone old) then Some value
  else old.

(** A value the comprehension over the tags, or the loop over the aliases,
    goes through without raising: a list of entries of the right shape,
    or an empty string or dict. *)
Definition iterable_of (shape : pyval → bool) (v : pyval) : bool :=
  match v with
  | PList l => forallb shape l
  | PStr _ | PDict _ => negb (py_truthy v)
  | _ => false
  end.

(** The external records on which [update_artist_from_mb] returns. *)
Definition accepted (mb : dict) : bool :=
  (negb (py_truthy (dict_get mb "gender")) || is_str (dict_get mb "gender"))
  && absent_or is_dict (mb !! "life-span")
  && absent_or is_dict (mb !! "area")
  && absent_or is_dict (mb !! "begin-area")
  && absent_or (iterable_of tag_has_name) (mb !! "tag-list")
  && absent_or (iterable_of alias_has_locale_type) (mb !! "alias-list").

(** The exception of an outcome, if it is one. *)
Definition raised {A : Type} (r : result A) : option exn :=
  match r with
  | Return _ => None
  | Raise e => Some e
  end.

(** A statement raises only exceptions of [E]. *)
Definition raises_only {A : Type} (E : exn → Prop) (p : M A) : Prop :=
  ∀ artist e artist', p artist = (Raise e, artist') → E e.

(** The exceptions of the merge: a failed attribute access or a type
    error on a value of the wrong type, or a tag without a [name]. *)
Definition merge_exn (e : exn) : Prop :=
  e = AttributeError ∨ e = TypeError ∨ e = KeyError (PStr "name").

(** Two statements end the same way, whatever records they run on. *)
Definition same_result {A : Type} (p q : M A) : Prop :=
  ∀ artist artist', (p artist).1 = (q artist').1.

(** Two statements raise the same exception, or both return. *)
Definition same_raised {A : Type} (p q : M A) : Prop :=
  ∀ artist artist', raised (p artist).1 = raised (q artist').1.

(** * Properties *)

(** ** One call of [set_field] *)

Lemma set_field_unfold overwrite key value artist :
  set_field overwrite key value artist =
    (Return tt,
     if is_none value then artist
     else if overwrite || py_in_blank (dict_get artist key)
          then <[key := value]> artist else artist).
Proof.
  unfold set_field.
  destruct value; simpl; try done; by destruct (overwrite || _).
Qed.

Lemma apply_write_unfold overwrite artist key value :
  apply_write overwrite artist (key, value) =
    if is_none value then artist
    else if overwrite || py_in_blank (dict_get artist key)
         then <[key := value]> artist else artist.
Proof. unfold apply_write. by rewrite set_field_unfold. Qed.

Lemma apply_write_lookup_ne overwrite artist key value field :
  key ≠ field →
  apply_write overwrite artist (key, value) !! field = artist !! field.
Proof.
  intros Hne. rewrite apply_write_unfold.
  repeat case_match; try done. by rewrite lookup_insert_ne.
Qed.

Lemma apply_write_keep artist w field x :
  artist !! field = Some x → py_in_blank x = false →
  apply_write false artist w !! field = Some x.
Proof.
  destruct w as [key value]. intros Hx Hblank.
  destruct (decide (key = field)) as [->|Hne].
  - rewrite apply_write_unfold. unfold dict_get. rewrite Hx. simpl.
    rewrite Hblank. by destruct (is_none value).
  - by rewrite apply_write_lookup_ne.
Qed.

Lemma apply_writes_keep ws artist field x :
  artist !! field = Some x → py_in_blank x = false →
  apply_writes false ws artist !! field = Some x.
Proof.
  revert artist. induction ws as [|w ws IH]; intros artist Hx Hblank; [done|].
  simpl. apply IH; [|done]. by apply apply_write_keep.
Qed.

Lemma apply_writes_app overwrite ws ws' artist :
  apply_writes overwrite (ws ++ ws')%list artist =
    apply_writes overwrite ws' (apply_writes overwrite ws artist).
Proof. unfold apply_writes. by rewrite foldl_app. Qed.

(** ** Idempotence of a sequence of writes *)

Lemma apply_write_settled artist w : settled (apply_write false artist w) w.
Proof.
  destruct w as [key value]. unfold settled.
  rewrite (apply_write_unfold false artist).
  destruct (is_none value) eqn:Hnone.
  { rewrite apply_write_unfold. by rewrite Hnone. }
  simpl. destruct (py_in_blank (dict_get artist key)) eqn:Hblank.
  - rewrite apply_write_unfold, Hnone. simpl.
    case_match; [|done]. by rewrite insert_insert_eq.
  - rewrite apply_write_unfold, Hnone. simpl. by rewrite Hblank.
Qed.

Lemma settled_apply_write artist w w' :
  agree w w' → settled artist w → settled (apply_write false artist w') w.
Proof.
  destruct w as [key value], w' as [key' value']. unfold agree, settled. simpl.
  intros Hagree Hw.
  destruct (decide (key = key')) as [<-|Hne].
  { rewrite <- (Hagree eq_refl). by rewrite !Hw. }
  rewrite (apply_write_unfold false artist key) in Hw.
  rewrite (apply_write_unfold false _ key).
  unfold dict_get. rewrite apply_write_lookup_ne by done. fold (dict_get artist key).
  destruct (is_none value); [done|]. simpl in *.
  destruct (py_in_blank (dict_get artist key)); [|done].
  rewrite (apply_write_unfold false artist key').
  repeat case_match; try done.
  rewrite insert_insert_ne by done. by rewrite Hw.
Qed.

Lemma settled_apply_writes ws artist w :
  Forall (agree w) ws → settled artist w → settled (apply_writes false ws artist) w.
Proof.
  revert artist. induction ws as [|w' ws IH]; intros artist Hall Hw; [done|].
  inversion Hall; subst. simpl. apply IH; [done|]. by apply settled_apply_write.
Qed.

Lemma apply_writes_all_settled ws artist :
  (∀ w w', w ∈ ws → w' ∈ ws → agree w w') →
  Forall (settled (apply_writes false ws artist)) ws.
Proof.
  revert artist. induction ws as [|w ws IH]; intros artist Hagree; [constructor|].
  simpl. constructor.
  - apply settled_apply_writes; [|apply apply_write_settled].
    apply Forall_forall. intros w' Hw'. apply Hagree; set_solver.
  - apply IH. intros ????. apply Hagree; set_solver.
Qed.

Lemma apply_writes_settled ws artist :
  Forall (settled artist) ws → apply_writes false ws artist = artist.
Proof.
  induction ws as [|w ws IH]; intros Hall; [done|].
  inversion Hall as [|?? Hw Hws]; subst. simpl. rewrite Hw. by apply IH.
Qed.

Lemma apply_writes_idempotent ws artist :
  (∀ w w', w ∈ ws → w' ∈ ws → agree w w') →
  apply_writes false ws (apply_writes false ws artist) = apply_writes false ws artist.
Proof. intros Hagree. by apply apply_writes_settled, apply_writes_all_settled. Qed.

(** ** The field-set policy over a sequence of writes *)

Lemma apply_writes_policy (cand : string → pyval) overwrite ws artist field :
  Forall (fun w : write => w.2 = cand w.1) ws →
  apply_writes overwrite ws artist !! field = artist !! field
  ∨ (cand field ≠ PNone
     ∧ apply_writes overwrite ws artist !! field = Some (cand field)
     ∧ (overwrite = true ∨ py_in_blank (dict_get artist field) = true)).
Proof.
  induction ws as [|[key value] ws IH] using rev_ind; intros Hall; [by left|].
  apply Forall_app in Hall as [Hws Hw]. apply Forall_inv in Hw. simpl in Hw.
  specialize (IH Hws). rewrite apply_writes_app. simpl.
  destruct (decide (key = field)) as [->|Hne];
    [|by rewrite apply_write_lookup_ne].
  rewrite apply_write_unfold.
  destruct (is_none value) eqn:Hnone; [done|].
  destruct (overwrite || py_in_blank (dict_get (apply_writes overwrite ws artist) field))
    eqn:Hpolicy; [|done].
  right. subst value. split; [by destruct (cand field)|].
  split; [by rewrite lookup_insert_eq|].
  destruct overwrite; [by left|]. simpl in Hpolicy.
  destruct IH as [Heq|(_ & _ & [?|?])]; [|done|by right].
  right. unfold dict_get in *. by rewrite <- Heq.
Qed.

(** ** Statements as sequences of writes *)

Section Plain.
Context (overwrite : bool) (P : write → Prop).

Lemma plain_ret {A} (x : A) : plain overwrite P (mret x).
Proof. by exists [], (Return x). Qed.

Lemma plain_lift {A} (r : result A) : plain overwrite P (lift r).
Proof. by exists [], r. Qed.

Lemma plain_set_field key value :
  P (key, value) → plain overwrite P (set_field overwrite key value).
Proof.
  intros HP. exists [(key, value)], (Return tt). split; [|by constructor].
  intros artist. simpl. unfold apply_write. simpl.
  by rewrite set_field_unfold.
Qed.

Lemma plain_bind {A B} (p : M A) (k : A → M B) :
  plain overwrite P p → (∀ x, plain overwrite P (k x)) →
  plain overwrite P (p ≫= k).
Proof.
  intros (ws & [x|e] & Hp & Hws) Hk.
  - destruct (Hk x) as (ws' & r' & Hk' & Hws').
    exists (ws ++ ws')%list, r'. split; [|by apply Forall_app].
    intros artist. unfold mbind, M_bind. rewrite Hp, Hk'.
    by rewrite apply_writes_app.
  - exists ws, (Raise e). split; [|done].
    intros artist. unfold mbind, M_bind. by rewrite Hp.
Qed.

Lemma plain_bind_lift {A B} (r : result A) (k : A → M B) :
  (∀ x, r = Return x → plain overwrite P (k x)) →
  plain overwrite P (lift r ≫= k).
Proof.
  intros Hk. destruct r as [x|e].
  - destruct (Hk x eq_refl) as (ws & r & Hk' & Hws). by exists ws, r.
  - by exists [], (Raise e).
Qed.

Lemma plain_for_each {A} (l : list A) (body : A → M unit) :
  (∀ x, x ∈ l → plain overwrite P (body x)) →
  plain overwrite P (for_each l body).
Proof.
  induction l as [|x l IH]; intros Hbody; simpl.
  - apply plain_ret.
  - apply plain_bind; [apply Hbody; set_solver|].
    intros _. apply IH. intros y Hy. apply Hbody. set_solver.
Qed.

Lemma writes_only_get_artist : writes_only overwrite P get_artist.
Proof. by exists [], (Return tt). Qed.

Lemma writes_only_bind {A} (p : M A) (k : A → M dict) :
  plain overwrite P p → (∀ x, writes_only overwrite P (k x)) →
  writes_only overwrite P (p ≫= k).
Proof.
  intros (ws & [x|e] & Hp & Hws) Hk.
  - destruct (Hk x) as (ws' & r & Hk' & Hws').
    exists (ws ++ ws')%list, r. split; [|by apply Forall_app].
    intros artist. unfold mbind, M_bind. rewrite Hp, Hk'.
    by rewrite apply_writes_app.
  - exists ws, (Raise e). split; [|done].
    intros artist. unfold mbind, M_bind. by rewrite Hp.
Qed.

End Plain.

(** ** The writes of [update_artist_from_mb] *)

Lemma plain_weaken {A} overwrite (P P' : write → Prop) (p : M A) :
  (∀ w, P w → P' w) → plain overwrite P p → plain overwrite P' p.
Proof.
  intros HP (ws & r & Hp & Hws). exists ws, r. split; [done|].
  eapply Forall_impl; eauto.
Qed.

Lemma normalize_gender_candidate mb v :
  normalize_gender (dict_get mb "gender") = Return v →
  v = candidate mb "gender".
Proof.
  unfold candidate, normalize_gender. simpl.
  destruct (dict_get mb "gender"); simpl; try done.
  unfold mret, result_ret. repeat case_match; by intros [= <-].
Qed.

Lemma life_span_get_eq mb key v :
  py_get (default (PDict ∅) (mb !! "life-span")) key PNone = Return v →
  v = life_span_get mb key.
Proof.
  unfold life_span_get, dict_get.
  destruct (mb !! "life-span") as [[]|]; simpl; try done; by intros [= <-].
Qed.

Lemma area_name_eq mb area d v :
  mb !! area = Some d → py_get d "name" PNone = Return v →
  v = area_name mb area.
Proof.
  unfold area_name, dict_get. intros ->.
  destruct d; simpl; try done; by intros [= <-].
Qed.

Lemma mapM_iter_names_cons v ts t tags :
  py_iter v = Return ts →
  mapM (fun t => py_getitem t "name") ts = Return (t :: tags) →
  ∃ t' ts', v = PList (t' :: ts') ∧ ts = t' :: ts'.
Proof.
  destruct v as [| | |s|l|d]; simpl; intros Hiter Hnames; simplify_eq.
  - destruct s; simplify_eq/=.
  - destruct ts; simplify_eq/=. eauto.
  - destruct (map_to_list d) as [|[]]; simplify_eq/=.
Qed.

Lemma alias_is_it_true a locale :
  py_get a "locale" (PStr EmptyString) = Return locale →
  py_startswith locale "it" = Return true →
  alias_is_it a = true.
Proof.
  destruct a as [| | | | |d]; simpl; try done.
  destruct (d !! "locale") as [[]|]; simpl; intros; by simplify_eq/=.
Qed.

Lemma alias_has_it_locale mb aliases a :
  py_iter (default (PList []) (mb !! "alias-list")) = Return aliases →
  a ∈ aliases → alias_is_it a = true → has_it_locale mb = true.
Proof.
  unfold has_it_locale. intros Hiter Ha Hit.
  destruct (mb !! "alias-list") as [[| | |s|l|d']|]; simplify_eq/=.
  - apply list_elem_of_fmap in Ha as (? & -> & ?). done.
  - apply existsb_exists. exists a. split; [by apply list_elem_of_In|done].
  - apply list_elem_of_fmap in Ha as (? & -> & ?). done.
  - by apply elem_of_nil in Ha.
Qed.

Ltac plain_step :=
  cbv beta;
  lazymatch goal with
  | |- plain _ _ (mret _) => apply plain_ret
  | |- plain _ _ (lift _) => apply plain_lift
  | |- plain _ _ (set_field _ _ _) => apply plain_set_field
  | |- plain _ _ (for_each _ _) => apply plain_for_each; intros ? ?
  | |- plain _ _ (lift _ ≫= _) => apply plain_bind_lift; intros ? ?
  | |- plain _ _ (_ ≫= _) => apply plain_bind; [|intros ?]
  | |- plain _ _ (if ?b then _ else _) => destruct b eqn:?
  | |- plain _ _ (match ?x with _ => _ end) => destruct x eqn:?
  | |- writes_only _ _ get_artist => apply writes_only_get_artist
  | |- writes_only _ _ (_ ≫= _) => apply writes_only_bind; [|intros ?]
  end.

Ltac writes_to_key := unfold writes_to; split; [set_solver|]; unfold is_candidate; cbn [fst snd].

Lemma set_basic_fields_plain mb overwrite :
  plain overwrite (writes_to mb ["id_author"; "name"]) (set_basic_fields mb overwrite).
Proof. unfold set_basic_fields. repeat plain_step; by writes_to_key. Qed.

Lemma set_gender_plain mb overwrite :
  plain overwrite (writes_to mb ["gender"]) (set_gender mb overwrite).
Proof.
  unfold set_gender. cbv zeta. repeat plain_step; writes_to_key.
  by apply normalize_gender_candidate.
Qed.

Lemma set_life_span_plain mb overwrite :
  plain overwrite (writes_to mb ["birth_date"; "active_start"; "active_end"])
    (set_life_span mb overwrite).
Proof.
  unfold set_life_span. cbv zeta. repeat plain_step; writes_to_key.
  - by apply life_span_get_eq.
  - by apply life_span_get_eq.
  - match goal with
    | H : py_get _ "ended" _ = Return ?v |- _ =>
        apply life_span_get_eq in H; subst v
    end.
    unfold candidate. simpl.
    by match goal with H : py_in_false _ = false |- _ => rewrite H end.
Qed.

Lemma set_country_plain mb overwrite :
  plain overwrite (writes_to mb ["country"]) (set_country mb overwrite).
Proof.
  unfold set_country. repeat plain_step; writes_to_key. by eapply area_name_eq.
Qed.

Lemma set_birth_place_plain mb overwrite :
  plain overwrite (writes_to mb ["birth_place"]) (set_birth_place mb overwrite).
Proof.
  unfold set_birth_place. repeat plain_step; writes_to_key. by eapply area_name_eq.
Qed.

Lemma set_description_plain mb overwrite :
  plain overwrite (writes_to mb ["description"]) (set_description mb overwrite).
Proof.
  unfold set_description. repeat plain_step; writes_to_key.
  match goal with
  | Hi : py_iter _ = Return _, Hm : mapM _ _ = Return _ |- _ =>
      destruct (mapM_iter_names_cons _ _ _ _ Hi Hm) as (t' & ts' & -> & ->);
      unfold candidate; cbn [String.eqb Ascii.eqb Bool.eqb];
      match goal with H : mb !! "tag-list" = _ |- _ => rewrite H end;
      rewrite Hm
  end.
  simpl. by match goal with H : py_join _ _ = _ |- _ => rewrite H end.
Qed.

Lemma set_nationality_plain mb overwrite :
  plain overwrite (writes_to mb ["nationality"]) (set_nationality mb overwrite).
Proof.
  unfold set_nationality, set_nationality_from. repeat plain_step; writes_to_key.
  unfold candidate. simpl.
  erewrite alias_has_it_locale; eauto using alias_is_it_true.
Qed.

(** The body of [update_artist_from_mb] is a sequence of calls of
    [set_field], each with the candidate of its key. *)
Lemma update_body_writes mb overwrite :
  writes_only overwrite (is_candidate mb) (update_body mb overwrite).
Proof.
  unfold update_body.
  repeat plain_step;
    (eapply plain_weaken;
     [|first [ apply set_basic_fields_plain | apply set_gender_plain
             | apply set_life_span_plain | apply set_country_plain
             | apply set_birth_place_plain | apply set_description_plain
             | apply set_nationality_plain ]]);
    by intros ? [_ ?].
Qed.

Lemma update_artist_from_mb_writes mb overwrite :
  ∃ ws (r : result unit),
    Forall (is_candidate mb) ws
    ∧ ∀ artist,
        update_artist_from_mb artist mb overwrite =
          ((fun _ => apply_writes overwrite ws artist) <$> r,
           apply_writes overwrite ws artist).
Proof.
  destruct (update_body_writes mb overwrite) as (ws & r & Hrun & Hws).
  by exists ws, r.
Qed.

(** When the call returns, it returns the caller's dict itself. *)
Lemma update_artist_from_mb_returns artist mb overwrite d artist' :
  update_artist_from_mb artist mb overwrite = (Return d, artist') → d = artist'.
Proof.
  destruct (update_artist_from_mb_writes mb overwrite) as (ws & r & _ & Hrun).
  rewrite Hrun. destruct r; simpl; congruence.
Qed.

(** Each local field is left as it was, or holds its candidate, which is
    not [None] and which the policy let through. *)
Lemma merged_policy artist mb overwrite field :
  merged artist mb overwrite !! field = artist !! field
  ∨ (candidate mb field ≠ PNone
     ∧ merged artist mb overwrite !! field = Some (candidate mb field)
     ∧ (overwrite = true ∨ py_in_blank (dict_get artist field) = true)).
Proof.
  destruct (update_artist_from_mb_writes mb overwrite) as (ws & r & Hws & Hrun).
  unfold merged. rewrite Hrun. simpl.
  by apply apply_writes_policy.
Qed.

(** ** Running the sections one after the other *)

Lemma bind_run {A B} (p : M A) (k : A → M B) artist x artist' :
  p artist = (Return x, artist') → (p ≫= k) artist = k x artist'.
Proof. intros Hp. unfold mbind, M_bind. by rewrite Hp. Qed.

Lemma bind_returns {A B} (p : M A) (k : A → M B) artist y artist'' :
  (p ≫= k) artist = (Return y, artist'') →
  ∃ x artist', p artist = (Return x, artist') ∧ k x artist' = (Return y, artist'').
Proof.
  unfold mbind, M_bind. destruct (p artist) as [[x|e] artist']; [eauto|done].
Qed.

Lemma apply_writes_frame overwrite ws artist field :
  Forall (fun w : write => w.1 ≠ field) ws →
  apply_writes overwrite ws artist !! field = artist !! field.
Proof.
  revert artist. induction ws as [|[key value] ws IH]; intros artist Hall; [done|].
  inversion Hall; subst. simpl. rewrite IH by done. by apply apply_write_lookup_ne.
Qed.

(** A section leaves the fields that are not its own as they were. *)
Lemma plain_frame {A} overwrite mb keys (p : M A) artist r artist' field :
  plain overwrite (writes_to mb keys) p → field ∉ keys →
  p artist = (r, artist') → artist' !! field = artist !! field.
Proof.
  intros (ws & r' & Hp & Hws) Hfield. rewrite Hp. intros [= _ <-].
  apply apply_writes_frame. eapply Forall_impl; [done|].
  intros w [Hw _] Heq. by rewrite Heq in Hw.
Qed.

Lemma writes_only_frame overwrite mb keys (p : M dict) artist field :
  writes_only overwrite (writes_to mb keys) p → field ∉ keys →
  (p artist).2 !! field = artist !! field.
Proof.
  intros (ws & r' & Hp & Hws) Hfield. rewrite Hp. simpl.
  apply apply_writes_frame. eapply Forall_impl; [done|].
  intros w [Hw _] Heq. by rewrite Heq in Hw.
Qed.

Ltac sections_step :=
  first
    [ plain_step
    | eapply plain_weaken;
      [|first [ apply set_basic_fields_plain | apply set_gender_plain
              | apply set_life_span_plain | apply set_country_plain
              | apply set_birth_place_plain | apply set_description_plain
              | apply set_nationality_plain ]];
      intros ? [Hkey ?]; split; [|done];
      set_unfold; intuition (subst; auto) ].

Lemma set_basic_fields_returns mb overwrite artist :
  ∃ artist', set_basic_fields mb overwrite artist = (Return tt, artist').
Proof.
  unfold set_basic_fields, mbind, M_bind.
  rewrite set_field_unfold, set_field_unfold. eauto.
Qed.

(** The gender section writes the normalized value when the policy lets
    it, and no later section touches the field. *)
Lemma merged_gender artist mb overwrite v :
  py_truthy (dict_get mb "gender") = true →
  normalize_gender (dict_get mb "gender") = Return v →
  is_none v = false →
  overwrite = true ∨ py_in_blank (dict_get artist "gender") = true →
  merged artist mb overwrite !! "gender" = Some v.
Proof.
  intros Htruthy Hnorm Hnone Hpolicy.
  unfold merged, update_artist_from_mb, update_body.
  destruct (set_basic_fields_returns mb overwrite artist) as [artist1 Hbasic].
  rewrite (bind_run _ _ _ _ _ Hbasic).
  assert (set_gender mb overwrite artist1
          = (Return tt, <["gender" := v]> artist1)) as Hgender.
  { unfold set_gender. cbv zeta. rewrite Htruthy.
    rewrite (bind_run (lift _) _ _ v artist1) by (unfold lift; by rewrite Hnorm).
    rewrite set_field_unfold, Hnone.
    replace (dict_get artist1 "gender") with (dict_get artist "gender").
    - by destruct Hpolicy as [-> | ->]; rewrite ?orb_true_r.
    - unfold dict_get. f_equal. symmetry.
      eapply plain_frame;
        [apply set_basic_fields_plain|by compute_done|exact Hbasic]. }
  rewrite (bind_run _ _ _ _ _ Hgender).
  erewrite (writes_only_frame overwrite mb
              ["birth_date"; "active_start"; "active_end"; "country";
               "birth_place"; "description"; "nationality"]).
  - apply lookup_insert_eq.
  - repeat sections_step.
  - by compute_done.
Qed.

(** The nationality loop, one alias: it returns on a dict whose locale is
    missing or a string. *)
Lemma set_nationality_from_returns overwrite a artist u artist' :
  set_nationality_from overwrite a artist = (Return u, artist') →
  artist' =
    if alias_is_it a && (overwrite || py_in_blank (dict_get artist "nationality"))
    then <["nationality" := PStr "Italia"]> artist else artist.
Proof.
  unfold set_nationality_from, alias_is_it, mbind, M_bind, lift.
  destruct a as [| | | | |d]; simpl; try done.
  destruct (d !! "locale") as [[| | |locale| |]|]; simpl; try done.
  - destruct (String.prefix "it" locale); simpl.
    + destruct (overwrite || _); by intros [= _ <-].
    + by intros [= _ <-].
  - by intros [= _ <-].
Qed.

Lemma for_each_nationality overwrite aliases artist u artist' :
  for_each aliases (set_nationality_from overwrite) artist = (Return u, artist') →
  artist' !! "nationality" =
    if existsb alias_is_it aliases
       && (overwrite || py_in_blank (dict_get artist "nationality"))
    then Some (PStr "Italia") else artist !! "nationality".
Proof.
  revert artist. induction aliases as [|a aliases IH]; intros artist; simpl.
  - by intros [= _ <-].
  - intros (x & artist1 & Ha & Hrest)%bind_returns.
    apply set_nationality_from_returns in Ha. apply IH in Hrest.
    rewrite Hrest, Ha. clear.
    destruct (alias_is_it a), overwrite, (existsb alias_is_it aliases); simpl;
      try done;
      destruct (py_in_blank (dict_get artist "nationality")) eqn:Hblank; simpl;
      unfold dict_get; rewrite ?lookup_insert_eq; simpl; try done;
      fold (dict_get artist "nationality"); by rewrite Hblank.
Qed.

Lemma existsb_alias_is_it_strs {A} (f : A → string) (l : list A) :
  existsb alias_is_it ((fun x => PStr (f x)) <$> l) = false.
Proof. by induction l. Qed.

Lemma iter_aliases_has_it_locale mb aliases :
  py_iter (default (PList []) (mb !! "alias-list")) = Return aliases →
  existsb alias_is_it aliases = has_it_locale mb.
Proof.
  unfold has_it_locale.
  destruct (mb !! "alias-list") as [[| | |s|l|d]|]; simpl; try done;
    intros [= <-]; try done.
  - apply (existsb_alias_is_it_strs (fun c => String c EmptyString)).
  - apply (existsb_alias_is_it_strs fst).
Qed.

(** When the call returns, the nationality field is "Italia" if some alias
    has a locale starting with "it" and the policy lets the write through,
    and is as it was otherwise. *)
Lemma returned_nationality artist mb overwrite d artist' :
  update_artist_from_mb artist mb overwrite = (Return d, artist') →
  d !! "nationality" =
    if has_it_locale mb
       && (overwrite || py_in_blank (dict_get artist "nationality"))
    then Some (PStr "Italia") else artist !! "nationality".
Proof.
  unfold update_artist_from_mb, update_body.
  intros (? & a1 & H1 & H)%bind_returns.
  apply bind_returns in H as (? & a2 & H2 & H).
  apply bind_returns in H as (? & a3 & H3 & H).
  apply bind_returns in H as (? & a4 & H4 & H).
  apply bind_returns in H as (? & a5 & H5 & H).
  apply bind_returns in H as (? & a6 & H6 & H).
  apply bind_returns in H as (? & a7 & H7 & H).
  injection H as <- _.
  assert (a6 !! "nationality" = artist !! "nationality") as Hframe.
  { trans (a5 !! "nationality");
      [eapply plain_frame; [apply set_description_plain|by compute_done|exact H6]|].
    trans (a4 !! "nationality");
      [eapply plain_frame; [apply set_birth_place_plain|by compute_done|exact H5]|].
    trans (a3 !! "nationality");
      [eapply plain_frame; [apply set_country_plain|by compute_done|exact H4]|].
    trans (a2 !! "nationality");
      [eapply plain_frame; [apply set_life_span_plain|by compute_done|exact H3]|].
    trans (a1 !! "nationality");
      [eapply plain_frame; [apply set_gender_plain|by compute_done|exact H2]|].
    eapply plain_frame; [apply set_basic_fields_plain|by compute_done|exact H1]. }
  unfold set_nationality in H7.
  apply bind_returns in H7 as (aliases & ? & Hiter & Hloop).
  unfold lift in Hiter. injection Hiter as Hiter <-.
  apply for_each_nationality in Hloop.
  rewrite Hloop, (iter_aliases_has_it_locale _ _ Hiter).
  unfold dict_get. by rewrite Hframe.
Qed.

(** ** The merge: frame, idempotence, policy *)

(** C1. With [overwrite=False], a local field that holds a value other
    than [None], the empty string and the empty list holds the same value
    after the call, whatever the external record is and whether the call
    returns or raises. *)
Theorem merge_keeps_nonempty_field (artist mb : dict) (field : string) (v : pyval) :
  artist !! field = Some v →
  py_in_blank v = false →
  merged artist mb false !! field = Some v.
Proof.
  intros Hv Hblank.
  destruct (update_artist_from_mb_writes mb false) as (ws & r & _ & Hrun).
  unfold merged. rewrite Hrun. simpl. by apply apply_writes_keep.
Qed.

Lemma merge_keeps_nonempty_field_witness :
  merged {[ "name" := PStr "Verdi" ]} {[ "name" := PStr "Giuseppe Verdi" ]} false
    !! "name" = Some (PStr "Verdi").
Proof.
  apply (merge_keeps_nonempty_field
           {[ "name" := PStr "Verdi" ]} {[ "name" := PStr "Giuseppe Verdi" ]}
           "name" (PStr "Verdi")); reflexivity.
Defined.

(** C2. With [overwrite=False], merging the same external record into the
    result of a merge does what the first merge did (it returns the same
    dict or raises the same exception) and leaves the record as the first
    merge left it. *)
Theorem merge_idempotent (artist mb : dict) :
  update_artist_from_mb (merged artist mb false) mb false
  = update_artist_from_mb artist mb false.
Proof.
  destruct (update_artist_from_mb_writes mb false) as (ws & r & Hws & Hrun).
  unfold merged. rewrite !Hrun. simpl.
  rewrite apply_writes_idempotent; [done|].
  intros w w' Hw Hw' Hkey.
  rewrite Forall_forall in Hws.
  rewrite (Hws w Hw), (Hws w' Hw'). by rewrite Hkey.
Qed.

(** C7. Whatever the overwrite flag, after the call each local field
    either is as it was, or holds the candidate derived from the external
    record: then the candidate is not [None], and either [overwrite] is
    set or the field was [None], the empty string, the empty list or
    missing.  A field whose candidate is absent is never written. *)
Theorem merge_writes_only_candidates (artist mb : dict) (overwrite : bool) (field : string) :
  (merged artist mb overwrite !! field = artist !! field
   ∨ (candidate mb field ≠ PNone
      ∧ merged artist mb overwrite !! field = Some (candidate mb field)
      ∧ (overwrite = true ∨ py_in_blank (dict_get artist field) = true)))
  ∧ (candidate mb field = PNone →
     merged artist mb overwrite !! field = artist !! field).
Proof.
  split; [apply merged_policy|].
  intros Hnone. by destruct (merged_policy artist mb overwrite field) as [?|[? _]].
Qed.

(** ** The merge: malformed external records *)

(** C4. A tag without a [name] is not skipped: [t["name"]] raises a
    [KeyError] (line 151), where the area, the begin-area and the aliases
    are read with [.get] and a missing key there is skipped. *)
Theorem merge_raises_on_tag_without_name :
  update_artist_from_mb ∅ {[ "tag-list" := PList [PDict {[ "count" := PStr "3" ]}] ]} false
  = (Raise (KeyError (PStr "name")), ∅)
  ∧ update_artist_from_mb ∅
      {[ "area" := PDict ∅; "begin-area" := PDict ∅;
         "alias-list" := PList [PDict ∅] ]} false
    = (Return ∅, ∅).
Proof. split; vm_compute; reflexivity. Qed.

(** ** The merge returns on a well-shaped external record *)

Lemma returns_ret {A} (x : A) : returns (mret x : M A).
Proof. intros artist. by exists x, artist. Qed.

Lemma returns_set_field overwrite key value : returns (set_field overwrite key value).
Proof. intros artist. rewrite set_field_unfold. eauto. Qed.

Lemma returns_bind {A B} (p : M A) (k : A → M B) :
  returns p → (∀ x, returns (k x)) → returns (p ≫= k).
Proof.
  intros Hp Hk artist. destruct (Hp artist) as (x & artist' & Hx).
  rewrite (bind_run _ _ _ _ _ Hx). apply Hk.
Qed.

Lemma returns_bind_lift {A B} (r : result A) (k : A → M B) x :
  r = Return x → returns (k x) → returns (lift r ≫= k).
Proof. intros -> Hk artist. apply Hk. Qed.

Lemma returns_for_each {A} (l : list A) (body : A → M unit) :
  Forall (fun x => returns (body x)) l → returns (for_each l body).
Proof.
  induction 1; simpl; [apply returns_ret|].
  apply returns_bind; [done|]. by intros _.
Qed.

Lemma normalize_gender_str g :
  normalize_gender (PStr g) =
    Return (if String.eqb (str_lower g) "male" then PStr "M"
            else if String.eqb (str_lower g) "female" then PStr "F"
            else PNone).
Proof.
  unfold normalize_gender. simpl.
  by destruct (String.eqb (str_lower g) "male").
Qed.

Lemma set_gender_returns mb overwrite :
  negb (py_truthy (dict_get mb "gender")) || is_str (dict_get mb "gender") = true →
  returns (set_gender mb overwrite).
Proof.
  unfold set_gender. cbv zeta. intros Hshape.
  destruct (py_truthy (dict_get mb "gender")); [|apply returns_ret].
  destruct (dict_get mb "gender") as [| | |g| |]; try done.
  eapply returns_bind_lift; [apply normalize_gender_str|apply returns_set_field].
Qed.

Lemma set_life_span_returns mb overwrite :
  absent_or is_dict (mb !! "life-span") = true →
  returns (set_life_span mb overwrite).
Proof.
  unfold set_life_span. cbv zeta. intros Hshape.
  destruct (mb !! "life-span") as [[| | | | |ls]|]; try done; simpl;
    (eapply returns_bind_lift; [done|]);
    (apply returns_bind; [apply returns_set_field|intros _]);
    (eapply returns_bind_lift; [done|]);
    (apply returns_bind; [apply returns_set_field|intros _]);
    (eapply returns_bind_lift; [done|]);
    case_match; first [apply returns_ret|apply returns_set_field].
Qed.

Lemma set_area_returns (mb : dict) overwrite (area field : string) :
  absent_or is_dict (mb !! area) = true →
  returns (match mb !! area with
           | Some d =>
               name ← lift (py_get d "name" PNone);
               set_field overwrite field name
           | None => mret tt
           end).
Proof.
  intros Hshape.
  destruct (mb !! area) as [[| | | | |d]|]; try done; [|apply returns_ret].
  eapply returns_bind_lift; [done|apply returns_set_field].
Qed.

Lemma tag_names_return (ts : list pyval) :
  forallb tag_has_name ts = true →
  ∃ tags names,
    mapM (fun t => py_getitem t "name") ts = Return tags
    ∧ py_strs tags = Return names.
Proof.
  induction ts as [|t ts IH]; simpl; [by exists [], []|].
  intros [Ht Hts]%andb_prop. destruct (IH Hts) as (tags & names & Htags & Hnames).
  destruct t as [| | | | |d]; try done. simpl in *.
  destruct (d !! "name") as [[| | |name| |]|]; try done. simpl.
  rewrite Htags. simpl. exists (PStr name :: tags), (name :: names).
  split; [done|]. simpl. by rewrite Hnames.
Qed.

Lemma set_description_returns mb overwrite :
  absent_or (list_of tag_has_name) (mb !! "tag-list") = true →
  returns (set_description mb overwrite).
Proof.
  unfold set_description. intros Hshape.
  destruct (mb !! "tag-list") as [[| | | |ts|]|]; try done; [|apply returns_ret].
  simpl in Hshape. destruct (tag_names_return ts Hshape) as (tags & names & Htags & Hnames).
  eapply returns_bind_lift; [done|].
  eapply returns_bind_lift; [exact Htags|].
  destruct tags; [apply returns_ret|].
  eapply returns_bind_lift; [|apply returns_set_field].
  unfold py_join. by rewrite Hnames.
Qed.

Lemma set_nationality_returns mb overwrite :
  absent_or (list_of alias_has_locale_type) (mb !! "alias-list") = true →
  returns (set_nationality mb overwrite).
Proof.
  unfold set_nationality. intros Hshape.
  destruct (mb !! "alias-list") as [[| | | |aliases|]|]; try done; simpl;
    (eapply returns_bind_lift; [done|]); [|apply returns_ret].
  apply returns_for_each. simpl in Hshape.
  apply Forall_forall. intros a Ha.
  rewrite forallb_forall in Hshape. apply list_elem_of_In, Hshape in Ha.
  unfold set_nationality_from.
  destruct a as [| | | | |d]; try done. simpl in Ha.
  destruct (d !! "locale") as [[| | |locale| |]|] eqn:Hlocale; try done.
  - eapply returns_bind_lift; [simpl; by rewrite Hlocale|].
    eapply returns_bind_lift; [done|].
    case_match; [apply returns_set_field|apply returns_ret].
  - eapply returns_bind_lift; [simpl; by rewrite Hlocale|].
    eapply returns_bind_lift; [done|]. apply returns_ret.
Qed.

(** On a well-shaped external record the call returns the merged record:
    a missing key, a [life-span], an area or an alias without the key
    that is read, is skipped. *)
Lemma merge_returns_on_well_shaped artist mb overwrite :
  well_shaped mb = true →
  update_artist_from_mb artist mb overwrite
  = (Return (merged artist mb overwrite), merged artist mb overwrite).
Proof.
  unfold well_shaped. rewrite !andb_true_iff.
  intros [[[[[Hgender Hls] Harea] Hbegin] Htags] Haliases].
  assert (returns (update_body mb overwrite)) as Hreturns.
  { unfold update_body.
    apply returns_bind; [|intros _].
    { unfold set_basic_fields.
      apply returns_bind; [|intros _]; apply returns_set_field. }
    apply returns_bind; [by apply set_gender_returns|intros _].
    apply returns_bind; [by apply set_life_span_returns|intros _].
    apply returns_bind; [by apply set_area_returns|intros _].
    apply returns_bind; [by apply set_area_returns|intros _].
    apply returns_bind; [by apply set_description_returns|intros _].
    apply returns_bind; [by apply set_nationality_returns|intros _].
    intros a. by exists a, a. }
  destruct (Hreturns artist) as (d & artist' & Hrun).
  pose proof (update_artist_from_mb_returns _ _ _ _ _ Hrun) as ->.
  unfold merged, update_artist_from_mb. by rewrite Hrun.
Qed.

(** ** The merge: field by field *)

(** C5. The field [active_end] is written only with the value of
    [life-span.ended], and only when that value is neither the string
    "false", nor [False], nor [None] or missing.  The two examples of the
    specification, on an empty local record. *)
Theorem active_end_only_from_ended :
  (∀ (artist mb : dict) (overwrite : bool),
     merged artist mb overwrite !! "active_end" = artist !! "active_end"
     ∨ ∃ (ls : dict) (ended : pyval),
         mb !! "life-span" = Some (PDict ls)
         ∧ ls !! "ended" = Some ended
         ∧ ended ≠ PStr "false" ∧ ended ≠ PBool false ∧ ended ≠ PNone
         ∧ merged artist mb overwrite !! "active_end" = Some ended)
  ∧ (let mb : dict :=
       {[ "life-span" := PDict {[ "begin" := PStr "1990"; "ended" := PStr "false" ]} ]} in
     (update_artist_from_mb ∅ mb false).1 = Return (merged ∅ mb false)
     ∧ merged ∅ mb false !! "active_start" = Some (PStr "1990")
     ∧ merged ∅ mb false !! "active_end" = None)
  ∧ (let mb : dict :=
       {[ "life-span" := PDict {[ "begin" := PStr "1990"; "ended" := PStr "2020" ]} ]} in
     (update_artist_from_mb ∅ mb false).1 = Return (merged ∅ mb false)
     ∧ merged ∅ mb false !! "active_end" = Some (PStr "2020")).
Proof.
  split; [|split; vm_compute; done].
  intros artist mb overwrite.
  destruct (merged_policy artist mb overwrite "active_end")
    as [?|(Hcand & Hmerged & _)]; [by left|right].
  unfold candidate in Hcand, Hmerged. simpl in Hcand, Hmerged.
  destruct (py_in_false (life_span_get mb "ended")) eqn:Hfalse; [done|].
  unfold life_span_get, dict_get in *.
  destruct (mb !! "life-span") as [[| | | | |ls]|]; try done.
  destruct (ls !! "ended") as [ended|] eqn:Hended; [|done].
  exists ls, ended. simpl in *. repeat split; try done; by intros ->.
Qed.

(** C6. The external gender is compared in lower case: "male" gives the
    local gender "M" and "female" gives "F", where the policy lets the
    write through; any other value, a string or not, leaves the local
    gender as it was, with [overwrite] set too.  The three examples of the
    specification, on an empty local record. *)
Theorem gender_normalized (artist mb : dict) (overwrite : bool) :
  (∀ g, mb !! "gender" = Some (PStr g) → str_lower g = "male" →
        overwrite = true ∨ py_in_blank (dict_get artist "gender") = true →
        merged artist mb overwrite !! "gender" = Some (PStr "M"))
  ∧ (∀ g, mb !! "gender" = Some (PStr g) → str_lower g = "female" →
          overwrite = true ∨ py_in_blank (dict_get artist "gender") = true →
          merged artist mb overwrite !! "gender" = Some (PStr "F"))
  ∧ ((∀ g, mb !! "gender" = Some (PStr g) →
           str_lower g ≠ "male" ∧ str_lower g ≠ "female") →
     merged artist mb overwrite !! "gender" = artist !! "gender")
  ∧ merged ∅ {[ "gender" := PStr "Male" ]} false !! "gender" = Some (PStr "M")
  ∧ merged ∅ {[ "gender" := PStr "Female" ]} false !! "gender" = Some (PStr "F")
  ∧ merged ∅ {[ "gender" := PStr "Other" ]} false !! "gender" = None.
Proof.
  split; [|split; [|split; [|by vm_compute]]].
  - intros g Hg Hlower Hpolicy. apply merged_gender; try done.
    + unfold dict_get. rewrite Hg. by destruct g.
    + unfold dict_get. rewrite Hg. unfold normalize_gender. simpl. by rewrite Hlower.
  - intros g Hg Hlower Hpolicy. apply merged_gender; try done.
    + unfold dict_get. rewrite Hg. by destruct g.
    + unfold dict_get. rewrite Hg. unfold normalize_gender. simpl. by rewrite Hlower.
  - intros Hother.
    destruct (merged_policy artist mb overwrite "gender") as [?|(Hcand & _)]; [done|].
    exfalso. apply Hcand. unfold candidate, dict_get. simpl.
    destruct (mb !! "gender") as [[| | |g| |]|] eqn:Hg; try done. simpl.
    destruct (Hother g eq_refl) as [Hm Hf].
    apply String.eqb_neq in Hm, Hf. by rewrite Hm, Hf.
Qed.

(** What the alias loop does by itself.  The field [nationality] is
    written only with "Italia", and only when some alias of [alias-list]
    has a locale starting with "it"; when the call returns, as it does on
    every well-shaped external record, the field is "Italia" if there is
    such an alias and the policy lets the write through, and is as it was
    otherwise.  The two examples of the specification, on an empty local
    record. *)
Lemma nationality_from_it_alias (artist mb : dict) (overwrite : bool) :
  (merged artist mb overwrite !! "nationality" = artist !! "nationality"
   ∨ (has_it_locale mb = true
      ∧ merged artist mb overwrite !! "nationality" = Some (PStr "Italia")
      ∧ (overwrite = true ∨ py_in_blank (dict_get artist "nationality") = true)))
  ∧ (∀ d artist',
       update_artist_from_mb artist mb overwrite = (Return d, artist') →
       d !! "nationality" =
         if has_it_locale mb
            && (overwrite || py_in_blank (dict_get artist "nationality"))
         then Some (PStr "Italia") else artist !! "nationality")
  ∧ (well_shaped mb = true →
     update_artist_from_mb artist mb overwrite
     = (Return (merged artist mb overwrite), merged artist mb overwrite)
     ∧ merged artist mb overwrite !! "nationality" =
         if has_it_locale mb
            && (overwrite || py_in_blank (dict_get artist "nationality"))
         then Some (PStr "Italia") else artist !! "nationality")
  ∧ merged ∅ {[ "alias-list" := PList [PDict {[ "locale" := PStr "it-IT" ]}] ]} false
      !! "nationality" = Some (PStr "Italia")
  ∧ merged ∅ {[ "alias-list" := PList [PDict {[ "locale" := PStr "en" ]}] ]} false
      !! "nationality" = None.
Proof.
  split; [|split; [|split; [|by vm_compute]]].
  - destruct (merged_policy artist mb overwrite "nationality")
      as [?|(Hcand & Hmerged & ?)]; [by left|right].
    unfold candidate in Hcand, Hmerged. simpl in Hcand, Hmerged.
    by destruct (has_it_locale mb).
  - intros d artist'. apply returned_nationality.
  - intros Hshape.
    pose proof (merge_returns_on_well_shaped artist mb overwrite Hshape) as Hrun.
    split; [done|]. by apply returned_nationality in Hrun.
Qed.

(** C9. An alias whose locale starts with "it" does not always give the
    nationality "Italia", even on an empty local record: when a tag has
    no [name], [t["name"]] raises at line 151, before the loop over the
    aliases (lines 156-158) is reached, and [nationality] stays missing.
    The same aliases without the tag list do set it. *)
Theorem nationality_not_set_after_tag_without_name :
  has_it_locale
    {[ "tag-list" := PList [PDict ∅];
       "alias-list" := PList [PDict {[ "locale" := PStr "it" ]}] ]} = true
  ∧ update_artist_from_mb ∅
      {[ "tag-list" := PList [PDict ∅];
         "alias-list" := PList [PDict {[ "locale" := PStr "it" ]}] ]} false
    = (Raise (KeyError (PStr "name")), ∅)
  ∧ merged ∅
      {[ "tag-list" := PList [PDict ∅];
         "alias-list" := PList [PDict {[ "locale" := PStr "it" ]}] ]} false
      !! "nationality" = None
  ∧ update_artist_from_mb ∅
      {[ "alias-list" := PList [PDict {[ "locale" := PStr "it" ]}] ]} false
    = (Return {[ "nationality" := PStr "Italia" ]},
       {[ "nationality" := PStr "Italia" ]}).
Proof. repeat split; vm_compute; reflexivity. Qed.

(** ** build_query *)

Lemma string_app_assoc (s1 s2 s3 : string) : (s1 ++ s2) ++ s3 = s1 ++ s2 ++ s3.
Proof. induction s1 as [|c s1 IH]; [done|]. exact (f_equal (String c) IH). Qed.

Lemma countries_map_lookup s code : countries_map !! s = Some code → code = "IT".
Proof. unfold countries_map. by intros [_ <-]%lookup_singleton_Some. Qed.

(** The clauses of a call that returns: the name clause when the name is
    truthy, then one country clause. *)
Lemma build_query_clauses_returns fmt artist cs :
  build_query_clauses fmt artist = Return cs →
  cs = ((if py_truthy (dict_get artist "name")
         then [name_clause fmt (dict_get artist "name")] else [])
        ++ [country_clause "IT"])%list.
Proof.
  unfold build_query_clauses.
  destruct (py_truthy (dict_get artist "country")) eqn:Hcountry.
  - destruct (countries_getitem (dict_get artist "country")) as [code|] eqn:Hcode;
      simpl; [|done].
    assert (code = "IT") as ->.
    { unfold countries_getitem in Hcode.
      destruct (dict_get artist "country") as [| | |s| |]; try done.
      destruct (countries_map !! s) eqn:Hs; [|done].
      injection Hcode as <-. by eapply countries_map_lookup. }
    intros [= <-]. by destruct (py_truthy (dict_get artist "name")).
  - intros [= <-]. by destruct (py_truthy (dict_get artist "name")).
Qed.

Lemma build_query_returns fmt artist q :
  build_query fmt artist = Return q →
  ∃ cs, build_query_clauses fmt artist = Return cs ∧ q = String.concat " AND " cs.
Proof.
  unfold build_query.
  destruct (build_query_clauses fmt artist) as [cs|]; simpl; [|done].
  intros [= <-]. eauto.
Qed.

(** C3. On a record whose country is hashable (a string, as in the data
    model of the specification, [None], a boolean or an integer),
    [build_query] raises exactly when the country is truthy and is not a
    key of [countries_map]; what it raises is the [KeyError] of the
    lookup, with the country as its key: nothing in [build_query] catches
    it. *)
Theorem build_query_raises_iff (fmt : pyval → string) (artist : dict) (e : exn) :
  py_hashable (dict_get artist "country") = true →
  build_query fmt artist = Raise e
  ↔ e = KeyError (dict_get artist "country")
    ∧ py_truthy (dict_get artist "country") = true
    ∧ is_country_key (dict_get artist "country") = false.
Proof.
  intros Hhash. unfold build_query, build_query_clauses.
  destruct (py_truthy (dict_get artist "country")) eqn:Htruthy; simpl.
  - unfold countries_getitem, is_country_key.
    destruct (dict_get artist "country") as [| | |s| |]; simpl; try done;
      try (split; [by intros [= <-]|by intros (-> & _ & _)]).
    destruct (countries_map !! s); simpl.
    + split; [done|by intros (_ & _ & ?)].
    + split; [by intros [= <-]|by intros (-> & _ & _)].
  - split; [done|by intros (_ & ? & _)].
Qed.

Lemma build_query_raises_iff_witness :
  build_query format_unused {[ "name" := PStr "Verdi"; "country" := PStr "France" ]}
  = Raise (KeyError (PStr "France")).
Proof.
  apply (build_query_raises_iff format_unused
           {[ "name" := PStr "Verdi"; "country" := PStr "France" ]}
           (KeyError (PStr "France"))); [reflexivity|].
  repeat split; reflexivity.
Defined.

(** A country that is a non-empty list or dict cannot be looked up: the
    lookup raises a [TypeError]. *)
Lemma build_query_unhashable_country fmt artist :
  py_truthy (dict_get artist "country") = true →
  py_hashable (dict_get artist "country") = false →
  build_query fmt artist = Raise TypeError.
Proof.
  intros Htruthy Hhash. unfold build_query, build_query_clauses.
  rewrite Htruthy. by destruct (dict_get artist "country").
Qed.


(** C10. A call that returns gives a non-empty string, made of clauses of
    which exactly one is a country clause, the last one: the string ends
    with it. *)
Theorem build_query_country_clause_last (fmt : pyval → string) (artist : dict) (q : string) :
  build_query fmt artist = Return q →
  q ≠ EmptyString
  ∧ ∃ cs,
      build_query_clauses fmt artist = Return cs
      ∧ q = String.concat " AND " cs
      ∧ length (List.filter is_country_clause cs) = 1
      ∧ last cs = Some (country_clause "IT")
      ∧ is_country_clause (country_clause "IT") = true
      ∧ ∃ front, q = front ++ country_clause "IT".
Proof.
  intros (cs & Hcs & ->)%build_query_returns.
  pose proof (build_query_clauses_returns _ _ _ Hcs) as ->.
  destruct (py_truthy (dict_get artist "name")); simpl.
  - split; [done|]. eexists. repeat split; try done.
    exists (name_clause fmt (dict_get artist "name") ++ " AND ").
    by rewrite string_app_assoc.
  - split; [done|]. eexists. repeat split; try done. by exists EmptyString.
Qed.

Lemma build_query_country_clause_last_witness :
  ∃ front,
    "name:" ++ dquote ++ "Verdi" ++ dquote ++ " AND " ++ country_clause "IT"
    = front ++ country_clause "IT".
Proof.
  assert (build_query format_unused {[ "name" := PStr "Verdi" ]}
          = Return ("name:" ++ dquote ++ "Verdi" ++ dquote ++ " AND "
                    ++ country_clause "IT")) as Hrun
    by (vm_compute; reflexivity).
  destruct (build_query_country_clause_last format_unused
              {[ "name" := PStr "Verdi" ]} _ Hrun)
    as (_ & cs & _ & _ & _ & _ & _ & Hfront).
  exact Hfront.
Defined.

(** ** Further examples of the specification *)

(** Tags are joined with ", " into the description; an empty tag list
    leaves it missing. *)
Example merge_tags_description :
  merged ∅ {[ "tag-list" := PList [PDict {[ "name" := PStr "opera" ]};
                                   PDict {[ "name" := PStr "romantic" ]}] ]} false
    !! "description" = Some (PStr "opera, romantic")
  ∧ merged ∅ {[ "tag-list" := PList [] ]} false !! "description" = None.
Proof. by vm_compute. Qed.

(** An integer [0] equals [False], so it is not written into
    [active_end] either. *)
Example merge_ended_zero :
  merged ∅ {[ "life-span" := PDict {[ "ended" := PInt 0 ]} ]} false !! "active_end" = None
  ∧ merged ∅ {[ "life-span" := PDict {[ "ended" := PInt 1 ]} ]} false !! "active_end"
    = Some (PInt 1).
Proof. by vm_compute. Qed.

(** With [overwrite] set, a non-empty local value is replaced; a gender
    that is neither "male" nor "female" still replaces nothing. *)
Example merge_overwrite :
  merged {[ "name" := PStr "Verdi"; "gender" := PStr "M" ]}
         {[ "name" := PStr "Giuseppe Verdi"; "gender" := PStr "other" ]} true
  = {[ "name" := PStr "Giuseppe Verdi"; "gender" := PStr "M" ]}.
Proof. by vm_compute. Qed.

(** An exception leaves the assignments made before it. *)
Example merge_raise_keeps_writes :
  update_artist_from_mb ∅ {[ "id" := PStr "42"; "tag-list" := PList [PDict ∅] ]} false
  = (Raise (KeyError (PStr "name")), {[ "id_author" := PStr "42" ]}).
Proof. by vm_compute. Qed.

(** * More properties of the merge *)

(** ** The record a returning call leaves *)

Lemma apply_write_lookup_eq overwrite artist key value :
  apply_write overwrite artist (key, value) !! key
  = resolve overwrite (artist !! key) value.
Proof.
  rewrite apply_write_unfold. unfold resolve, dict_get.
  destruct (is_none value); [done|].
  destruct (overwrite || _); [|done]. by rewrite lookup_insert_eq.
Qed.

Lemma apply_write_none overwrite artist key :
  apply_write overwrite artist (key, PNone) = artist.
Proof. by rewrite apply_write_unfold. Qed.

Lemma set_field_runs overwrite key value artist r artist' :
  set_field overwrite key value artist = (r, artist') →
  artist' = apply_write overwrite artist (key, value).
Proof. intros Hrun. unfold apply_write. simpl. by rewrite Hrun. Qed.

Lemma bind_lift_returns {A B} (r : result A) (k : A → M B) artist y artist' :
  (lift r ≫= k) artist = (Return y, artist') →
  ∃ x, r = Return x ∧ k x artist = (Return y, artist').
Proof.
  intros (x & ? & Hr & Hk)%bind_returns. unfold lift in Hr.
  injection Hr as -> <-. eauto.
Qed.

Lemma set_basic_fields_returned mb overwrite artist r artist' :
  set_basic_fields mb overwrite artist = (r, artist') →
  artist' = apply_writes overwrite
              [("id_author", candidate mb "id_author"); ("name", candidate mb "name")]
              artist.
Proof.
  unfold set_basic_fields, mbind, M_bind.
  rewrite (set_field_unfold overwrite "id_author").
  intros Hrun. apply set_field_runs in Hrun. subst artist'.
  unfold apply_writes, candidate. simpl.
  by rewrite (apply_write_unfold overwrite artist).
Qed.

Lemma candidate_gender_falsy mb :
  py_truthy (dict_get mb "gender") = false → candidate mb "gender" = PNone.
Proof.
  unfold candidate. simpl. destruct (dict_get mb "gender") as [| | |g| |]; try done.
  by destruct g.
Qed.

Lemma set_gender_returned mb overwrite artist u artist' :
  set_gender mb overwrite artist = (Return u, artist') →
  artist' = apply_write overwrite artist ("gender", candidate mb "gender").
Proof.
  unfold set_gender. cbv zeta.
  destruct (py_truthy (dict_get mb "gender")) eqn:Htruthy.
  - intros (v & Hv & ->%set_field_runs)%bind_lift_returns.
    by rewrite (normalize_gender_candidate _ _ Hv).
  - intros [= _ <-]. by rewrite candidate_gender_falsy, apply_write_none.
Qed.

Lemma set_life_span_returned mb overwrite artist u artist' :
  set_life_span mb overwrite artist = (Return u, artist') →
  artist' = apply_writes overwrite
              [("birth_date", candidate mb "birth_date");
               ("active_start", candidate mb "active_start");
               ("active_end", candidate mb "active_end")]
              artist.
Proof.
  unfold set_life_span. cbv zeta.
  intros (birth & ->%life_span_get_eq & Hrun)%bind_lift_returns.
  apply bind_returns in Hrun as (? & a1 & ->%set_field_runs & Hrun).
  apply bind_lift_returns in Hrun as (start & ->%life_span_get_eq & Hrun).
  apply bind_returns in Hrun as (? & a2 & ->%set_field_runs & Hrun).
  apply bind_lift_returns in Hrun as (ended & ->%life_span_get_eq & Hrun).
  unfold apply_writes. simpl. unfold candidate at 3. simpl.
  destruct (py_in_false (life_span_get mb "ended")).
  - injection Hrun as _ <-. by rewrite apply_write_none.
  - by apply set_field_runs in Hrun.
Qed.

Lemma set_area_returned (mb : dict) overwrite (area field : string) artist u artist' :
  (match mb !! area with
   | Some d =>
       name ← lift (py_get d "name" PNone);
       set_field overwrite field name
   | None => mret tt
   end) artist = (Return u, artist') →
  artist' = apply_write overwrite artist (field, area_name mb area).
Proof.
  destruct (mb !! area) as [d|] eqn:Harea.
  - intros (v & Hv & ->%set_field_runs)%bind_lift_returns.
    by rewrite (area_name_eq _ _ _ _ Harea Hv).
  - intros [= _ <-]. unfold area_name. by rewrite Harea, apply_write_none.
Qed.

Lemma mapM_cons_nonempty {A B} (f : A → result B) x l :
  mapM f (x :: l) ≠ Return [].
Proof.
  simpl. destruct (f x); simpl; [|done]. by destruct (mapM f l).
Qed.

Lemma description_candidate mb tl ts t tags joined :
  mb !! "tag-list" = Some tl →
  py_iter tl = Return ts →
  mapM (fun t => py_getitem t "name") ts = Return (t :: tags) →
  py_join ", " (t :: tags) = Return joined →
  candidate mb "description" = PStr joined.
Proof.
  intros Htl Hiter Hnames Hjoin.
  destruct (mapM_iter_names_cons _ _ _ _ Hiter Hnames) as (t' & ts' & -> & ->).
  unfold candidate. cbn [String.eqb Ascii.eqb Bool.eqb].
  rewrite Htl, Hnames. simpl. by rewrite Hjoin.
Qed.

Lemma description_candidate_no_tags mb tl ts :
  mb !! "tag-list" = Some tl →
  py_iter tl = Return ts →
  mapM (fun t => py_getitem t "name") ts = Return [] →
  candidate mb "description" = PNone.
Proof.
  intros Htl Hiter Hnames.
  unfold candidate. cbn [String.eqb Ascii.eqb Bool.eqb]. rewrite Htl.
  destruct tl as [| | | |[|t' ts']|]; try done.
  injection Hiter as <-. by apply mapM_cons_nonempty in Hnames.
Qed.

Lemma set_description_returned mb overwrite artist u artist' :
  set_description mb overwrite artist = (Return u, artist') →
  artist' = apply_write overwrite artist ("description", candidate mb "description").
Proof.
  unfold set_description.
  destruct (mb !! "tag-list") as [tl|] eqn:Htl.
  - intros (ts & Hiter & Hrun)%bind_lift_returns.
    apply bind_lift_returns in Hrun as (tags & Hnames & Hrun).
    destruct tags as [|t tags].
    + injection Hrun as _ <-.
      by rewrite (description_candidate_no_tags _ _ _ Htl Hiter Hnames),
        apply_write_none.
    + apply bind_lift_returns in Hrun as (joined & Hjoin & ->%set_field_runs).
      by rewrite (description_candidate _ _ _ _ _ _ Htl Hiter Hnames Hjoin).
  - intros [= _ <-]. unfold candidate. cbn [String.eqb Ascii.eqb Bool.eqb].
    by rewrite Htl, apply_write_none.
Qed.

Lemma for_each_nationality_record overwrite aliases artist u artist' :
  for_each aliases (set_nationality_from overwrite) artist = (Return u, artist') →
  artist' =
    if existsb alias_is_it aliases
       && (overwrite || py_in_blank (dict_get artist "nationality"))
    then <["nationality" := PStr "Italia"]> artist else artist.
Proof.
  revert artist. induction aliases as [|a aliases IH]; intros artist; simpl.
  - by intros [= _ <-].
  - intros (x & artist1 & Ha & Hrest)%bind_returns.
    apply set_nationality_from_returns in Ha. apply IH in Hrest.
    rewrite Hrest, Ha. clear.
    destruct (alias_is_it a), overwrite, (existsb alias_is_it aliases); simpl;
      try done;
      destruct (py_in_blank (dict_get artist "nationality")) eqn:Hblank; simpl;
      unfold dict_get; rewrite ?lookup_insert_eq; simpl;
      rewrite ?insert_insert_eq; try done;
      fold (dict_get artist "nationality"); by rewrite Hblank.
Qed.

Lemma set_nationality_returned mb overwrite artist u artist' :
  set_nationality mb overwrite artist = (Return u, artist') →
  artist' = apply_write overwrite artist ("nationality", candidate mb "nationality").
Proof.
  unfold set_nationality.
  intros (aliases & Hiter & Hloop)%bind_lift_returns.
  apply for_each_nationality_record in Hloop.
  rewrite (iter_aliases_has_it_locale _ _ Hiter) in Hloop. subst artist'.
  rewrite apply_write_unfold. unfold candidate. simpl.
  by destruct (has_it_locale mb).
Qed.

(** When the call returns, the record is the local record after one call
    of [set_field] per target field, with the candidate of the field. *)
Lemma returned_record artist mb overwrite d artist' :
  update_artist_from_mb artist mb overwrite = (Return d, artist') →
  d = apply_writes overwrite (candidate_writes mb) artist.
Proof.
  unfold update_artist_from_mb, update_body.
  intros (? & a1 & ->%set_basic_fields_returned & H)%bind_returns.
  apply bind_returns in H as (? & a2 & ->%set_gender_returned & H).
  apply bind_returns in H as (? & a3 & ->%set_life_span_returned & H).
  apply bind_returns in H as (? & a4 & ->%set_area_returned & H).
  apply bind_returns in H as (? & a5 & ->%set_area_returned & H).
  apply bind_returns in H as (? & a6 & ->%set_description_returned & H).
  apply bind_returns in H as (? & a7 & ->%set_nationality_returned & H).
  by injection H as <- _.
Qed.

Lemma apply_writes_fields_lookup overwrite (c : string → pyval) fields artist key :
  NoDup fields →
  apply_writes overwrite ((fun field => (field, c field)) <$> fields) artist !! key
  = if bool_decide (key ∈ fields) then resolve overwrite (artist !! key) (c key)
    else artist !! key.
Proof.
  intros Hdup. revert artist.
  induction Hdup as [|field fields Hfield Hdup IH]; intros artist; [done|].
  simpl. rewrite IH.
  destruct (decide (field = key)) as [->|Hne].
  - case_bool_decide as Hin; [done|].
    case_bool_decide as Hin'; [apply apply_write_lookup_eq|].
    exfalso. apply Hin'. apply list_elem_of_here.
  - rewrite apply_write_lookup_ne by done.
    case_bool_decide as Hin; case_bool_decide as Hin'; try done; exfalso.
    + apply Hin'. by apply list_elem_of_further.
    + apply Hin. by apply elem_of_cons in Hin' as [->|?].
Qed.

Lemma target_fields_NoDup : NoDup target_fields.
Proof. by compute_done. Qed.

Lemma candidate_non_target mb field :
  field ∉ target_fields → candidate mb field = PNone.
Proof.
  intros Hfield. unfold candidate.
  repeat match goal with
         | |- context [String.eqb field ?s] =>
             destruct (String.eqb_spec field s) as [->|_];
             [exfalso; apply Hfield; by compute_done|]
         end.
  done.
Qed.

Lemma returned_lookup artist mb overwrite d artist' field :
  update_artist_from_mb artist mb overwrite = (Return d, artist') →
  d !! field = resolve overwrite (artist !! field) (candidate mb field).
Proof.
  intros ->%returned_record. unfold candidate_writes.
  rewrite apply_writes_fields_lookup by apply target_fields_NoDup.
  case_bool_decide as Hfield; [done|].
  by rewrite (candidate_non_target _ _ Hfield).
Qed.

(** X1. When the call returns, every field of the returned record is
    decided by the policy of [set_field] on the candidate of the field:
    the candidate is written iff it is not [None] and [overwrite] is set
    or the old value is [None], the empty string, the empty list or
    missing; a field is as it was otherwise. *)
Theorem returned_fields_follow_policy
    (artist mb : dict) (overwrite : bool) (d artist' : dict) (field : string) :
  update_artist_from_mb artist mb overwrite = (Return d, artist') →
  d !! field =
    if is_none (candidate mb field) then artist !! field
    else if overwrite || py_in_blank (dict_get artist field)
         then Some (candidate mb field)
         else artist !! field.
Proof. apply returned_lookup. Qed.

Lemma returned_fields_follow_policy_witness :
  ({[ "name" := PStr "Giuseppe Verdi"; "gender" := PStr "M" ]} : dict) !! "name"
  = Some (PStr "Giuseppe Verdi").
Proof.
  assert (update_artist_from_mb
            {[ "name" := PStr "Verdi" ]}
            {[ "name" := PStr "Giuseppe Verdi"; "gender" := PStr "Male" ]} true
          = (Return {[ "name" := PStr "Giuseppe Verdi"; "gender" := PStr "M" ]},
             {[ "name" := PStr "Giuseppe Verdi"; "gender" := PStr "M" ]})) as Hrun
    by (vm_compute; reflexivity).
  exact (returned_fields_follow_policy _ _ _ _ _ "name" Hrun).
Defined.

(** X2. The order in which the ten fields are processed does not matter:
    when the call returns, the returned record is the local record after
    one call of [set_field] per target field with its candidate, the
    fields taken in any order. *)
Theorem returned_record_any_order
    (artist mb : dict) (overwrite : bool) (d artist' : dict) (fields : list string) :
  update_artist_from_mb artist mb overwrite = (Return d, artist') →
  fields ≡ₚ target_fields →
  d = apply_writes overwrite
        ((fun field => (field, candidate mb field)) <$> fields) artist.
Proof.
  intros Hrun Hperm. apply map_eq. intros key.
  rewrite (returned_lookup _ _ _ _ _ key Hrun).
  rewrite apply_writes_fields_lookup
    by (rewrite Hperm; apply target_fields_NoDup).
  case_bool_decide as Hfield; [done|].
  rewrite candidate_non_target; [done|]. by rewrite <- Hperm.
Qed.

Lemma returned_record_any_order_witness :
  ({[ "name" := PStr "Giuseppe Verdi"; "gender" := PStr "M" ]} : dict)
  = apply_writes true
      ((fun field =>
          (field,
           candidate {[ "name" := PStr "Giuseppe Verdi"; "gender" := PStr "Male" ]}
             field)) <$> reverse target_fields)
      {[ "name" := PStr "Verdi" ]}.
Proof.
  assert (update_artist_from_mb
            {[ "name" := PStr "Verdi" ]}
            {[ "name" := PStr "Giuseppe Verdi"; "gender" := PStr "Male" ]} true
          = (Return {[ "name" := PStr "Giuseppe Verdi"; "gender" := PStr "M" ]},
             {[ "name" := PStr "Giuseppe Verdi"; "gender" := PStr "M" ]})) as Hrun
    by (vm_compute; reflexivity).
  exact (returned_record_any_order _ _ _ _ _ (reverse target_fields) Hrun
           (reverse_Permutation target_fields)).
Defined.

(** ** The external records on which the call returns *)

Lemma dict_size_0_to_list (d : dict) : size d = 0 ↔ map_to_list d = [].
Proof. by rewrite map_size_empty_iff, map_to_list_empty_iff. Qed.

Lemma iter_falsy v :
  match v with PStr _ | PDict _ => negb (py_truthy v) = true | _ => False end →
  py_iter v = Return [].
Proof.
  destruct v as [| | |s| |d]; simpl; try done.
  - by destruct s.
  - rewrite negb_true_iff, negb_false_iff, Nat.eqb_eq. intros Hsize.
    apply dict_size_0_to_list in Hsize. by rewrite Hsize.
Qed.

Lemma set_gender_shape mb overwrite artist u artist' :
  set_gender mb overwrite artist = (Return u, artist') →
  negb (py_truthy (dict_get mb "gender")) || is_str (dict_get mb "gender") = true.
Proof.
  unfold set_gender. cbv zeta.
  destruct (py_truthy (dict_get mb "gender")); [|done].
  intros (v & Hv & _)%bind_lift_returns.
  by destruct (dict_get mb "gender").
Qed.

Lemma set_life_span_shape mb overwrite artist u artist' :
  set_life_span mb overwrite artist = (Return u, artist') →
  absent_or is_dict (mb !! "life-span") = true.
Proof.
  unfold set_life_span. cbv zeta.
  intros (v & Hv & _)%bind_lift_returns.
  by destruct (mb !! "life-span") as [[]|].
Qed.

Lemma set_area_shape (mb : dict) overwrite (area field : string) artist u artist' :
  (match mb !! area with
   | Some d =>
       name ← lift (py_get d "name" PNone);
       set_field overwrite field name
   | None => mret tt
   end) artist = (Return u, artist') →
  absent_or is_dict (mb !! area) = true.
Proof.
  destruct (mb !! area) as [d|]; [|done].
  intros (v & Hv & _)%bind_lift_returns. by destruct d.
Qed.

Lemma tag_names_shape (ts tags : list pyval) names :
  mapM (fun t => py_getitem t "name") ts = Return tags →
  py_strs tags = Return names →
  forallb tag_has_name ts = true.
Proof.
  revert tags names. induction ts as [|t ts IH]; intros tags names; [done|].
  simpl. destruct t as [| | | | |d]; try done. simpl.
  destruct (d !! "name") as [name|]; [|done]. simpl.
  destruct (mapM _ ts) as [tags'|] eqn:Htags'; [|done]. simpl.
  intros [= <-]. simpl.
  destruct name as [| | |s| |]; try done.
  destruct (py_strs tags') as [names'|] eqn:Hnames'; [|done].
  intros _. simpl. by eapply IH.
Qed.

Lemma getitem_strs_raise {A} (f : A → string) (l : list A) tags :
  mapM (fun t => py_getitem t "name") ((fun x => PStr (f x)) <$> l) = Return tags →
  l = [].
Proof. by destruct l. Qed.

Lemma set_description_shape mb overwrite artist u artist' :
  set_description mb overwrite artist = (Return u, artist') →
  absent_or (iterable_of tag_has_name) (mb !! "tag-list") = true.
Proof.
  unfold set_description.
  destruct (mb !! "tag-list") as [tl|]; [|done].
  intros (ts & Hiter & Hrun)%bind_lift_returns.
  apply bind_lift_returns in Hrun as (tags & Hnames & Hrun).
  destruct tl as [| | |s|l|d]; simpl in *; try done.
  - injection Hiter as <-. apply getitem_strs_raise in Hnames.
    by destruct s.
  - injection Hiter as <-. destruct tags as [|t tags].
    + destruct l; [done|]. by apply mapM_cons_nonempty in Hnames.
    + apply bind_lift_returns in Hrun as (joined & Hjoin & _).
      unfold py_join in Hjoin.
      destruct (py_strs (t :: tags)) as [names|] eqn:Hstrs; [|done].
      by eapply tag_names_shape.
  - injection Hiter as <-. apply getitem_strs_raise in Hnames.
    apply dict_size_0_to_list in Hnames. by rewrite Hnames.
Qed.

Lemma set_nationality_from_shape overwrite a artist u artist' :
  set_nationality_from overwrite a artist = (Return u, artist') →
  alias_has_locale_type a = true.
Proof.
  unfold set_nationality_from.
  intros (locale & Hlocale & Hrun)%bind_lift_returns.
  apply bind_lift_returns in Hrun as (it & Hit & _).
  destruct a as [| | | | |d]; try done. simpl in *.
  destruct (d !! "locale") as [[]|]; simpl in *; by simplify_eq.
Qed.

Lemma for_each_nationality_shape overwrite aliases artist u artist' :
  for_each aliases (set_nationality_from overwrite) artist = (Return u, artist') →
  forallb alias_has_locale_type aliases = true.
Proof.
  revert artist. induction aliases as [|a aliases IH]; intros artist; [done|].
  simpl. intros (? & artist1 & Ha & Hrest)%bind_returns.
  apply set_nationality_from_shape in Ha. apply IH in Hrest.
  by rewrite Ha, Hrest.
Qed.

Lemma set_nationality_shape mb overwrite artist u artist' :
  set_nationality mb overwrite artist = (Return u, artist') →
  absent_or (iterable_of alias_has_locale_type) (mb !! "alias-list") = true.
Proof.
  unfold set_nationality.
  intros (aliases & Hiter & Hloop)%bind_lift_returns.
  destruct (mb !! "alias-list") as [[| | |s|l|d]|]; simpl in *; try done.
  - injection Hiter as <-. destruct s; [done|].
    simpl in Hloop. by apply bind_returns in Hloop as (? & ? & ? & _).
  - injection Hiter as <-. by eapply for_each_nationality_shape.
  - injection Hiter as <-.
    destruct (map_to_list d) as [|kv kvs] eqn:Hd.
    + apply dict_size_0_to_list in Hd. by rewrite Hd.
    + simpl in Hloop. by apply bind_returns in Hloop as (? & ? & ? & _).
Qed.

Lemma set_description_returns_iterable mb overwrite :
  absent_or (iterable_of tag_has_name) (mb !! "tag-list") = true →
  returns (set_description mb overwrite).
Proof.
  intros Hshape.
  destruct (mb !! "tag-list") as [tl|] eqn:Htl;
    [|apply set_description_returns; by rewrite Htl].
  destruct tl as [| | |s|l|d]; try done;
    [|apply set_description_returns; by rewrite Htl|];
    unfold set_description; rewrite Htl;
    (eapply returns_bind_lift; [by apply iter_falsy|]);
    (eapply returns_bind_lift; [done|]); apply returns_ret.
Qed.

Lemma set_nationality_returns_iterable mb overwrite :
  absent_or (iterable_of alias_has_locale_type) (mb !! "alias-list") = true →
  returns (set_nationality mb overwrite).
Proof.
  intros Hshape.
  destruct (mb !! "alias-list") as [al|] eqn:Hal;
    [|apply set_nationality_returns; by rewrite Hal].
  destruct al as [| | |s|l|d]; try done;
    [|apply set_nationality_returns; by rewrite Hal|];
    unfold set_nationality; rewrite Hal;
    (eapply returns_bind_lift; [by apply iter_falsy|]); apply returns_ret.
Qed.

Lemma update_body_returns mb overwrite :
  accepted mb = true → returns (update_body mb overwrite).
Proof.
  unfold accepted. rewrite !andb_true_iff.
  intros [[[[[Hgender Hls] Harea] Hbegin] Htags] Haliases].
  unfold update_body.
  apply returns_bind; [|intros _].
  { unfold set_basic_fields.
    apply returns_bind; [|intros _]; apply returns_set_field. }
  apply returns_bind; [by apply set_gender_returns|intros _].
  apply returns_bind; [by apply set_life_span_returns|intros _].
  apply returns_bind; [by apply set_area_returns|intros _].
  apply returns_bind; [by apply set_area_returns|intros _].
  apply returns_bind; [by apply set_description_returns_iterable|intros _].
  apply returns_bind; [by apply set_nationality_returns_iterable|intros _].
  intros a. by exists a, a.
Qed.

(** X3. The call returns exactly on the accepted external records: the
    gender is falsy or a string; [life-span], [area] and [begin-area] are
    missing or dicts; [tag-list] is missing, empty, or a list of dicts
    each with a string [name]; [alias-list] is missing, empty, or a list
    of dicts each with a missing or string [locale].  On any other
    external record it raises, whatever the local record and the flag. *)
Theorem returns_iff_accepted (artist mb : dict) (overwrite : bool) :
  (∃ d artist', update_artist_from_mb artist mb overwrite = (Return d, artist'))
  ↔ accepted mb = true.
Proof.
  split.
  - intros (d & artist' & Hrun). unfold update_artist_from_mb, update_body in Hrun.
    unfold accepted.
    apply bind_returns in Hrun as (? & a1 & _ & H).
    apply bind_returns in H as (? & a2 & ->%set_gender_shape & H).
    apply bind_returns in H as (? & a3 & ->%set_life_span_shape & H).
    apply bind_returns in H as (? & a4 & ->%set_area_shape & H).
    apply bind_returns in H as (? & a5 & ->%set_area_shape & H).
    apply bind_returns in H as (? & a6 & ->%set_description_shape & H).
    apply bind_returns in H as (? & a7 & ->%set_nationality_shape & H).
    done.
  - intros Haccepted. apply (update_body_returns mb overwrite Haccepted artist).
Qed.

(** ** The outcome depends on the external record only *)

Lemma same_result_ret {A} (x : A) : same_result (mret x : M A) (mret x).
Proof. by intros ??. Qed.

Lemma same_result_lift {A} (r : result A) : same_result (lift r) (lift r).
Proof. by intros ??. Qed.

Lemma same_result_set_field overwrite overwrite' key value :
  same_result (set_field overwrite key value) (set_field overwrite' key value).
Proof. intros ??. by rewrite !set_field_unfold. Qed.

Lemma same_result_bind {A B} (p q : M A) (k k' : A → M B) :
  same_result p q → (∀ x, same_result (k x) (k' x)) →
  same_result (p ≫= k) (q ≫= k').
Proof.
  intros Hp Hk artist artist'. unfold mbind, M_bind.
  specialize (Hp artist artist').
  destruct (p artist) as [[x|e] a], (q artist') as [[x'|e'] a'];
    simpl in Hp; simplify_eq; [apply Hk|done].
Qed.

Lemma same_result_for_each {A} (l : list A) (body body' : A → M unit) :
  (∀ x, same_result (body x) (body' x)) →
  same_result (for_each l body) (for_each l body').
Proof.
  intros Hbody. induction l as [|x l IH]; simpl; [apply same_result_ret|].
  apply same_result_bind; [done|]. by intros _.
Qed.

Lemma same_raised_bind {A B} (p q : M A) (k k' : A → M B) :
  same_result p q → (∀ x, same_raised (k x) (k' x)) →
  same_raised (p ≫= k) (q ≫= k').
Proof.
  intros Hp Hk artist artist'. unfold mbind, M_bind.
  specialize (Hp artist artist').
  destruct (p artist) as [[x|e] a], (q artist') as [[x'|e'] a'];
    simpl in Hp; simplify_eq; [apply Hk|done].
Qed.

Ltac same_step :=
  cbv beta;
  lazymatch goal with
  | |- same_result (mret _) (mret _) => apply same_result_ret
  | |- same_result (lift _) (lift _) => apply same_result_lift
  | |- same_result (set_field _ _ _) (set_field _ _ _) =>
      apply same_result_set_field
  | |- same_result (for_each _ _) (for_each _ _) =>
      apply same_result_for_each; intros ?
  | |- same_result (_ ≫= _) (_ ≫= _) => apply same_result_bind; [|intros ?]
  | |- same_result (if ?b then _ else _) (if ?b then _ else _) => destruct b
  | |- same_result (match ?x with _ => _ end) (match ?x with _ => _ end) =>
      destruct x
  end.

Lemma update_body_same_raised mb overwrite overwrite' :
  same_raised (update_body mb overwrite) (update_body mb overwrite').
Proof.
  unfold update_body.
  repeat (apply same_raised_bind; [|intros _]); [..|done].
  - unfold set_basic_fields. repeat same_step.
  - unfold set_gender. cbv zeta. repeat same_step.
  - unfold set_life_span. cbv zeta. repeat same_step.
  - unfold set_country. repeat same_step.
  - unfold set_birth_place. repeat same_step.
  - unfold set_description. repeat same_step.
  - unfold set_nationality, set_nationality_from. repeat same_step.
Qed.

(** X4. Whether the call raises, and the exception it raises, is the same
    for every local record and for both values of [overwrite]: it depends
    on the external record only. *)
Theorem merge_exception_depends_on_external_only
    (artist artist' mb : dict) (overwrite overwrite' : bool) :
  raised (update_artist_from_mb artist mb overwrite).1
  = raised (update_artist_from_mb artist' mb overwrite').1.
Proof. apply update_body_same_raised. Qed.

(** ** Idempotence for both values of the flag *)

Lemma apply_write_again overwrite artist w :
  apply_write overwrite (apply_write overwrite artist w) w
  = apply_write overwrite artist w.
Proof.
  destruct w as [key value].
  rewrite (apply_write_unfold overwrite artist).
  destruct (is_none value) eqn:Hnone.
  { rewrite apply_write_unfold. by rewrite Hnone. }
  destruct (overwrite || py_in_blank (dict_get artist key)) eqn:Hpolicy.
  - rewrite apply_write_unfold, Hnone.
    case_match; [|done]. by rewrite insert_insert_eq.
  - rewrite apply_write_unfold, Hnone. by rewrite Hpolicy.
Qed.

Lemma apply_write_fixed_after overwrite artist w w' :
  agree w w' →
  apply_write overwrite artist w = artist →
  apply_write overwrite (apply_write overwrite artist w') w
  = apply_write overwrite artist w'.
Proof.
  destruct w as [key value], w' as [key' value']. unfold agree. simpl.
  intros Hagree Hw.
  destruct (decide (key = key')) as [<-|Hne].
  { rewrite <- (Hagree eq_refl). by rewrite !Hw. }
  rewrite (apply_write_unfold overwrite artist key) in Hw.
  rewrite (apply_write_unfold overwrite _ key).
  unfold dict_get. rewrite apply_write_lookup_ne by done.
  fold (dict_get artist key).
  destruct (is_none value); [done|].
  destruct (overwrite || py_in_blank (dict_get artist key)); [|done].
  rewrite (apply_write_unfold overwrite artist key').
  repeat case_match; try done.
  rewrite insert_insert_ne by done. by rewrite Hw.
Qed.

Lemma apply_writes_fixed_after overwrite ws artist w :
  Forall (agree w) ws →
  apply_write overwrite artist w = artist →
  apply_write overwrite (apply_writes overwrite ws artist) w
  = apply_writes overwrite ws artist.
Proof.
  revert artist. induction ws as [|w' ws IH]; intros artist Hall Hw; [done|].
  inversion Hall; subst. simpl. apply IH; [done|].
  by apply apply_write_fixed_after.
Qed.

Lemma apply_writes_fixed overwrite ws artist :
  Forall (fun w => apply_write overwrite artist w = artist) ws →
  apply_writes overwrite ws artist = artist.
Proof.
  induction ws as [|w ws IH]; intros Hall; [done|].
  inversion Hall as [|?? Hw Hws]; subst. simpl. rewrite Hw. by apply IH.
Qed.

Lemma apply_writes_again overwrite ws artist :
  (∀ w w', w ∈ ws → w' ∈ ws → agree w w') →
  apply_writes overwrite ws (apply_writes overwrite ws artist)
  = apply_writes overwrite ws artist.
Proof.
  intros Hagree. apply apply_writes_fixed.
  revert artist. induction ws as [|w ws IH]; intros artist; [constructor|].
  simpl. constructor.
  - apply apply_writes_fixed_after; [|apply apply_write_again].
    apply Forall_forall. intros w' Hw'.
    apply Hagree; [apply list_elem_of_here|by apply list_elem_of_further].
  - apply IH. intros w1 w2 H1 H2.
    apply Hagree; by apply list_elem_of_further.
Qed.

(** X5. The merge is idempotent for both values of [overwrite]: a second
    call with the same external record ends as the first did (same
    returned dict or same exception) and leaves the record as the first
    call left it. *)
Theorem merge_idempotent_any_flag (artist mb : dict) (overwrite : bool) :
  update_artist_from_mb (merged artist mb overwrite) mb overwrite
  = update_artist_from_mb artist mb overwrite.
Proof.
  destruct (update_artist_from_mb_writes mb overwrite) as (ws & r & Hws & Hrun).
  unfold merged. rewrite !Hrun. simpl.
  rewrite apply_writes_again; [done|].
  intros w w' Hw Hw' Hkey.
  rewrite Forall_forall in Hws.
  rewrite (Hws w Hw), (Hws w' Hw'). by rewrite Hkey.
Qed.

(** ** What the merge never does *)

(** X6. The merge never deletes a key, never touches a key other than
    the ten target fields, and never stores [None]: a key of the local
    record is a key afterwards, a key outside the target fields has the
    value it had (or is still missing), and a field that holds [None]
    afterwards held it before.  This holds whether the call returns or
    raises. *)
Theorem merge_never_deletes (artist mb : dict) (overwrite : bool) (key : string) :
  (is_Some (artist !! key) → is_Some (merged artist mb overwrite !! key))
  ∧ (key ∉ target_fields → merged artist mb overwrite !! key = artist !! key)
  ∧ (merged artist mb overwrite !! key = Some PNone → artist !! key = Some PNone).
Proof.
  destruct (merged_policy artist mb overwrite key) as [Heq|(Hcand & Hnew & _)].
  - rewrite Heq. repeat split; done.
  - rewrite Hnew. repeat split.
    + by intros _.
    + intros Hkey. by rewrite candidate_non_target in Hcand.
    + intros [= Hnone]. by rewrite Hnone in Hcand.
Qed.

(** ** The flag on a record with nothing to keep *)

(** X7. On a local record whose ten target fields are all missing or
    blank ([None], the empty string or the empty list), the flag makes no
    difference: on an accepted external record the call with
    [overwrite=False] returns the same record as the call with
    [overwrite=True]. *)
Theorem overwrite_irrelevant_on_blank_record (artist mb : dict) :
  accepted mb = true →
  forallb (fun field => py_in_blank (dict_get artist field)) target_fields = true →
  update_artist_from_mb artist mb false = update_artist_from_mb artist mb true.
Proof.
  intros Haccepted Hblank.
  destruct (update_body_returns mb false Haccepted artist) as (d & a & Hrun).
  destruct (update_body_returns mb true Haccepted artist) as (d' & a' & Hrun').
  fold (update_artist_from_mb artist mb false) in Hrun.
  fold (update_artist_from_mb artist mb true) in Hrun'.
  pose proof (update_artist_from_mb_returns _ _ _ _ _ Hrun) as <-.
  pose proof (update_artist_from_mb_returns _ _ _ _ _ Hrun') as <-.
  rewrite Hrun, Hrun'. enough (d = d') by congruence.
  apply map_eq. intros key.
  rewrite (returned_lookup _ _ _ _ _ key Hrun), (returned_lookup _ _ _ _ _ key Hrun').
  unfold resolve. destruct (is_none (candidate mb key)) eqn:Hnone; [done|].
  destruct (decide (key ∈ target_fields)) as [Hkey|Hkey].
  - rewrite forallb_forall in Hblank.
    apply list_elem_of_In, Hblank in Hkey. unfold dict_get in Hkey. by rewrite Hkey.
  - by rewrite (candidate_non_target _ _ Hkey) in Hnone.
Qed.

Lemma overwrite_irrelevant_on_blank_record_witness :
  update_artist_from_mb {[ "name" := PStr EmptyString; "label" := PStr "Ricordi" ]}
    {[ "name" := PStr "Verdi"; "gender" := PStr "male" ]} false
  = update_artist_from_mb {[ "name" := PStr EmptyString; "label" := PStr "Ricordi" ]}
      {[ "name" := PStr "Verdi"; "gender" := PStr "male" ]} true.
Proof.
  apply (overwrite_irrelevant_on_blank_record
           {[ "name" := PStr EmptyString; "label" := PStr "Ricordi" ]}
           {[ "name" := PStr "Verdi"; "gender" := PStr "male" ]});
    vm_compute; reflexivity.
Defined.

(** ** The exceptions of the merge *)

Lemma raises_only_ret {A} E (x : A) : raises_only E (mret x : M A).
Proof. by intros ???. Qed.

Lemma raises_only_set_field E overwrite key value :
  raises_only E (set_field overwrite key value).
Proof. intros ???. by rewrite set_field_unfold. Qed.

Lemma raises_only_lift {A} (E : exn → Prop) (r : result A) :
  (∀ e, r = Raise e → E e) → raises_only E (lift r).
Proof. intros Hr ??? [= -> _]. by apply Hr. Qed.

Lemma raises_only_bind {A B} E (p : M A) (k : A → M B) :
  raises_only E p → (∀ x, raises_only E (k x)) → raises_only E (p ≫= k).
Proof.
  intros Hp Hk artist e artist'. unfold mbind, M_bind.
  destruct (p artist) as [[x|e'] a] eqn:Hrun.
  - apply Hk.
  - intros [= <- _]. by eapply Hp.
Qed.

Lemma raises_only_for_each {A} E (l : list A) (body : A → M unit) :
  (∀ x, raises_only E (body x)) → raises_only E (for_each l body).
Proof.
  intros Hbody. induction l as [|x l IH]; simpl; [apply raises_only_ret|].
  apply raises_only_bind; [done|]. by intros _.
Qed.

Lemma get_raises v key dflt e : py_get v key dflt = Raise e → merge_exn e.
Proof. destruct v; simpl; intros [= <-]; by left. Qed.

Lemma normalize_gender_raises v e : normalize_gender v = Raise e → merge_exn e.
Proof.
  destruct v; try (intros [= <-]; by left).
  by rewrite normalize_gender_str.
Qed.

Lemma iter_raises v e : py_iter v = Raise e → merge_exn e.
Proof. destruct v; simpl; intros [= <-]; right; by left. Qed.

Lemma tag_names_raise ts e :
  mapM (fun t => py_getitem t "name") ts = Raise e → merge_exn e.
Proof.
  induction ts as [|t ts IH]; [done|]. simpl.
  destruct (py_getitem t "name") as [name|e'] eqn:Hname; simpl.
  - destruct (mapM _ ts); [done|]. simpl. intros [= <-]. by apply IH.
  - intros [= <-]. destruct t as [| | | | |d]; simpl in Hname;
      try (injection Hname as <-; right; by left).
    destruct (d !! "name"); [done|]. injection Hname as <-. right. by right.
Qed.

Lemma join_raises sep l e : py_join sep l = Raise e → merge_exn e.
Proof.
  unfold py_join. destruct (py_strs l) as [|e'] eqn:Hstrs; [done|].
  simpl. intros [= <-]. revert e' Hstrs.
  induction l as [|v l IH]; intros e' Hstrs; [done|].
  destruct v; simpl in Hstrs; try (injection Hstrs as <-; right; by left).
  destruct (py_strs l); [done|]. simpl in Hstrs. injection Hstrs as <-.
  by apply IH.
Qed.

Lemma startswith_raises v p e : py_startswith v p = Raise e → merge_exn e.
Proof. destruct v; simpl; intros [= <-]; by left. Qed.

Ltac raises_step :=
  cbv beta;
  lazymatch goal with
  | |- raises_only _ (mret _) => apply raises_only_ret
  | |- raises_only _ (set_field _ _ _) => apply raises_only_set_field
  | |- raises_only _ (for_each _ _) => apply raises_only_for_each; intros ?
  | |- raises_only _ (lift _) =>
      apply raises_only_lift;
      eauto using get_raises, normalize_gender_raises, iter_raises,
        tag_names_raise, join_raises, startswith_raises
  | |- raises_only _ (_ ≫= _) => apply raises_only_bind; [|intros ?]
  | |- raises_only _ (if ?b then _ else _) => destruct b
  | |- raises_only _ (match ?x with _ => _ end) => destruct x
  end.

Lemma update_body_raises mb overwrite :
  raises_only merge_exn (update_body mb overwrite).
Proof.
  unfold update_body.
  apply raises_only_bind;
    [unfold set_basic_fields; repeat raises_step|intros _].
  apply raises_only_bind;
    [unfold set_gender; cbv zeta; repeat raises_step|intros _].
  apply raises_only_bind;
    [unfold set_life_span; cbv zeta; repeat raises_step|intros _].
  apply raises_only_bind; [unfold set_country; repeat raises_step|intros _].
  apply raises_only_bind; [unfold set_birth_place; repeat raises_step|intros _].
  apply raises_only_bind; [unfold set_description; repeat raises_step|intros _].
  apply raises_only_bind;
    [unfold set_nationality, set_nationality_from; repeat raises_step|intros _].
  by intros ???.
Qed.

(** X8. The only exceptions the merge raises are [AttributeError],
    [TypeError] and [KeyError('name')]: in particular a [KeyError] is
    always the missing [name] of a tag, never a missing key of the
    external record or of a life span, an area or an alias. *)
Theorem merge_raises_only (artist mb : dict) (overwrite : bool) (e : exn) (artist' : dict) :
  update_artist_from_mb artist mb overwrite = (Raise e, artist') →
  e = AttributeError ∨ e = TypeError ∨ e = KeyError (PStr "name").
Proof. apply update_body_raises. Qed.

Lemma merge_raises_only_witness :
  KeyError (PStr "name") = AttributeError
  ∨ KeyError (PStr "name") = TypeError
  ∨ KeyError (PStr "name") = KeyError (PStr "name").
Proof.
  assert (update_artist_from_mb ∅ {[ "tag-list" := PList [PDict ∅] ]} false
          = (Raise (KeyError (PStr "name")), ∅)) as Hrun
    by (vm_compute; reflexivity).
  exact (merge_raises_only _ _ _ _ _ Hrun).
Defined.

(** * More properties of the query builder *)

Lemma countries_getitem_italia : countries_getitem (PStr "Italia") = Return "IT".
Proof. done. Qed.

Lemma countries_getitem_other c :
  c ≠ "Italia" → countries_getitem (PStr c) = Raise (KeyError (PStr c)).
Proof.
  intros Hc. unfold countries_getitem, countries_map.
  by rewrite lookup_singleton_ne.
Qed.

Lemma countries_getitem_returns v code :
  countries_getitem v = Return code → v = PStr "Italia".
Proof.
  destruct v as [| | |c| |]; try done.
  destruct (decide (c = "Italia")) as [->|Hc]; [done|].
  by rewrite countries_getitem_other.
Qed.

(** X9. [build_query] returns exactly when the country is falsy or
    missing, or is the string "Italia", the one key of [countries_map];
    it raises a [TypeError], not a [KeyError], exactly when the country is
    a non-empty list or dict. *)
Theorem build_query_outcomes (fmt : pyval → string) (artist : dict) :
  ((∃ q, build_query fmt artist = Return q)
   ↔ py_truthy (dict_get artist "country") = false
     ∨ dict_get artist "country" = PStr "Italia")
  ∧ (build_query fmt artist = Raise TypeError
     ↔ py_truthy (dict_get artist "country") = true
       ∧ py_hashable (dict_get artist "country") = false).
Proof.
  unfold build_query, build_query_clauses.
  destruct (py_truthy (dict_get artist "country")) eqn:Htruthy; simpl.
  - destruct (countries_getitem (dict_get artist "country")) as [code|e] eqn:Hcode;
      simpl.
    + pose proof (countries_getitem_returns _ _ Hcode) as Hitalia.
      split; [split; eauto|]. rewrite Hitalia. split; [done|by intros [_ ?]].
    + split.
      * split; [by intros [q ?]|]. intros [?|Hitalia]; [done|].
        by rewrite Hitalia in Hcode.
      * unfold countries_getitem in Hcode.
        destruct (dict_get artist "country") as [| | |c| |]; simpl;
          simplify_eq; try (split; [done|by intros [_ ?]]); try done.
        destruct (countries_map !! c); simplify_eq.
        split; [done|by intros [_ ?]].
  - split; [split; eauto|]. split; [done|by intros [? _]].
Qed.

(** ** The query of a merged record *)

(** X10. Merging an area makes the next query depend on it: when the
    call returns, the external record has an area with a non-empty
    string name and the policy lets the country through, [build_query] on
    the returned record raises the [KeyError] of that name, unless the
    name is "Italia", for which it returns the query that ends with the
    clause of "IT". *)
Theorem build_query_after_merge
    (fmt : pyval → string) (artist mb : dict) (overwrite : bool)
    (d artist' area : dict) (c : string) :
  update_artist_from_mb artist mb overwrite = (Return d, artist') →
  mb !! "area" = Some (PDict area) →
  area !! "name" = Some (PStr c) →
  c ≠ EmptyString →
  overwrite = true ∨ py_in_blank (dict_get artist "country") = true →
  build_query fmt d =
    if String.eqb c "Italia"
    then Return (String.concat " AND "
                   ((if py_truthy (dict_get d "name")
                     then [name_clause fmt (dict_get d "name")] else [])
                    ++ [country_clause "IT"]))
    else Raise (KeyError (PStr c)).
Proof.
  intros Hrun Harea Hname Hc Hpolicy.
  assert (dict_get d "country" = PStr c) as Hcountry.
  { unfold dict_get. rewrite (returned_lookup _ _ _ _ _ "country" Hrun).
    unfold candidate, area_name, resolve, dict_get in *. simpl.
    rewrite Harea, Hname. simpl.
    by destruct Hpolicy as [-> | ->]; rewrite ?orb_true_r. }
  unfold build_query, build_query_clauses. rewrite Hcountry.
  replace (py_truthy (PStr c)) with true by (by destruct c).
  destruct (String.eqb_spec c "Italia") as [->|Hother].
  - rewrite countries_getitem_italia. simpl.
    by destruct (py_truthy (dict_get d "name")).
  - by rewrite countries_getitem_other.
Qed.

Lemma build_query_after_merge_witness :
  build_query format_unused {[ "country" := PStr "France" ]}
  = Raise (KeyError (PStr "France")).
Proof.
  assert (update_artist_from_mb ∅
            {[ "area" := PDict {[ "name" := PStr "France" ]} ]} false
          = (Return {[ "country" := PStr "France" ]},
             {[ "country" := PStr "France" ]})) as Hrun
    by (vm_compute; reflexivity).
  exact (build_query_after_merge format_unused _ _ _ _ _
           {[ "name" := PStr "France" ]} "France"
           Hrun eq_refl eq_refl ltac:(discriminate) (or_intror eq_refl)).
Defined.

(** * The record a raising merge leaves *)

Lemma bind_raises {A B} (p : M A) (k : A → M B) artist e artist'' :
  (p ≫= k) artist = (Raise e, artist'') →
  p artist = (Raise e, artist'')
  ∨ ∃ x artist', p artist = (Return x, artist') ∧ k x artist' = (Raise e, artist'').
Proof.
  unfold mbind, M_bind. destruct (p artist) as [[x|e'] artist']; [eauto|].
  intros [= <- <-]. by left.
Qed.

Lemma get_raises_attribute v key dflt e :
  py_get v key dflt = Raise e → e = AttributeError.
Proof. destruct v; simpl; by intros [= <-]. Qed.

Lemma normalize_gender_raises_attribute v e :
  normalize_gender v = Raise e → e = AttributeError.
Proof.
  destruct v; try by intros [= <-].
  by rewrite normalize_gender_str.
Qed.

Ltac attribute_step :=
  cbv beta;
  lazymatch goal with
  | |- raises_only _ (mret _) => apply raises_only_ret
  | |- raises_only _ (set_field _ _ _) => apply raises_only_set_field
  | |- raises_only _ (lift _) =>
      apply raises_only_lift;
      eauto using get_raises_attribute, normalize_gender_raises_attribute
  | |- raises_only _ (_ ≫= _) => apply raises_only_bind; [|intros ?]
  | |- raises_only _ (if ?b then _ else _) => destruct b
  | |- raises_only _ (match ?x with _ => _ end) => destruct x
  end.

(** The sections before the tags raise nothing but [AttributeError]. *)
Lemma sections_before_tags_raise mb overwrite :
  raises_only (fun e => e = AttributeError) (set_basic_fields mb overwrite)
  ∧ raises_only (fun e => e = AttributeError) (set_gender mb overwrite)
  ∧ raises_only (fun e => e = AttributeError) (set_life_span mb overwrite)
  ∧ raises_only (fun e => e = AttributeError) (set_country mb overwrite)
  ∧ raises_only (fun e => e = AttributeError) (set_birth_place mb overwrite).
Proof.
  repeat split.
  - unfold set_basic_fields. repeat attribute_step.
  - unfold set_gender. cbv zeta. repeat attribute_step.
  - unfold set_life_span. cbv zeta. repeat attribute_step.
  - unfold set_country. repeat attribute_step.
  - unfold set_birth_place. repeat attribute_step.
Qed.

(** The tags are read before the description is written: a raise there
    leaves the record as the section found it. *)
Lemma set_description_raises_record mb overwrite artist e artist' :
  set_description mb overwrite artist = (Raise e, artist') → artist' = artist.
Proof.
  unfold set_description.
  destruct (mb !! "tag-list") as [tl|]; [|done].
  intros [[= _ <-]|(ts & a1 & [= _ <-] & Hrun)]%bind_raises; [done|].
  apply bind_raises in Hrun as [[= _ <-]|(tags & a2 & [= _ <-] & Hrun)]; [done|].
  destruct tags as [|t tags]; [done|].
  apply bind_raises in Hrun as [[= _ <-]|(joined & a3 & [= _ <-] & Hrun)]; [done|].
  by rewrite set_field_unfold in Hrun.
Qed.

(** The nationality section raises no [KeyError]. *)
Lemma set_nationality_raises mb overwrite :
  raises_only (fun e => e = AttributeError ∨ e = TypeError)
    (set_nationality mb overwrite).
Proof.
  unfold set_nationality, set_nationality_from.
  apply raises_only_bind.
  { apply raises_only_lift. intros e. destruct (default _ _); simpl; try done;
      intros [= <-]; by right. }
  intros aliases. apply raises_only_for_each. intros a.
  apply raises_only_bind.
  { apply raises_only_lift. intros e He. left. by eapply get_raises_attribute. }
  intros locale. apply raises_only_bind.
  { apply raises_only_lift. intros e. destruct locale; simpl; try done;
      intros [= <-]; by left. }
  intros []; [apply raises_only_set_field|apply raises_only_ret].
Qed.

(** X11. A raising merge is not rolled back.  When the call raises a
    [KeyError] (a tag without a name), the eight fields processed before
    the tags hold what the policy decides for them, as on a returning
    call, and [description] and [nationality] are as they were. *)
Theorem record_after_key_error
    (artist mb : dict) (overwrite : bool) (key : pyval) (artist' : dict)
    (field : string) :
  update_artist_from_mb artist mb overwrite = (Raise (KeyError key), artist') →
  artist' !! field =
    if bool_decide (field ∈ ["description"; "nationality"]) then artist !! field
    else if is_none (candidate mb field) then artist !! field
    else if overwrite || py_in_blank (dict_get artist field)
         then Some (candidate mb field)
         else artist !! field.
Proof.
  destruct (sections_before_tags_raise mb overwrite)
    as (Hbasic & Hgender & Hls & Hcountry & Hplace).
  unfold update_artist_from_mb, update_body. intros H.
  apply bind_raises in H as [H|(? & a1 & ->%set_basic_fields_returned & H)];
    [by apply Hbasic in H|].
  apply bind_raises in H as [H|(? & a2 & ->%set_gender_returned & H)];
    [by apply Hgender in H|].
  apply bind_raises in H as [H|(? & a3 & ->%set_life_span_returned & H)];
    [by apply Hls in H|].
  apply bind_raises in H as [H|(? & a4 & ->%set_area_returned & H)];
    [by apply Hcountry in H|].
  apply bind_raises in H as [H|(? & a5 & ->%set_area_returned & H)];
    [by apply Hplace in H|].
  apply bind_raises in H as [->%set_description_raises_record|(? & a6 & _ & H)].
  - change (apply_write overwrite _ ("birth_place", area_name mb "begin-area"))
      with (apply_writes overwrite
              ((fun f => (f, candidate mb f))
                 <$> ["id_author"; "name"; "gender"; "birth_date"; "active_start";
                      "active_end"; "country"; "birth_place"]) artist).
    rewrite apply_writes_fields_lookup by (by compute_done).
    fold (resolve overwrite (artist !! field) (candidate mb field)).
    case_bool_decide as Hfirst; case_bool_decide as Hlast; try done.
    + exfalso.
      assert (Forall (fun f : string => f ∉ ["description"; "nationality"])
                ["id_author"; "name"; "gender"; "birth_date"; "active_start";
                 "active_end"; "country"; "birth_place"]) as Hdisjoint
        by (by compute_done).
      rewrite Forall_forall in Hdisjoint. by apply (Hdisjoint field).
    + unfold resolve. rewrite candidate_non_target; [done|].
      intros Htarget.
      change target_fields
        with (["id_author"; "name"; "gender"; "birth_date"; "active_start";
               "active_end"; "country"; "birth_place"]
              ++ ["description"; "nationality"])%list in Htarget.
      by apply elem_of_app in Htarget as [?|?].
  - apply bind_raises in H as [H|(? & a7 & _ & H)]; [|done].
    apply set_nationality_raises in H. by destruct H.
Qed.

Lemma record_after_key_error_witness :
  ({[ "id_author" := PStr "42" ]} : dict) !! "id_author" = Some (PStr "42").
Proof.
  assert (update_artist_from_mb ∅
            {[ "id" := PStr "42"; "tag-list" := PList [PDict ∅] ]} false
          = (Raise (KeyError (PStr "name")), {[ "id_author" := PStr "42" ]}))
    as Hrun by (vm_compute; reflexivity).
  exact (record_after_key_error _ _ _ _ _ "id_author" Hrun).
Defined.
